(** * Social Bingo: layout generator and participant synchronisation

    A shallow embedding of the core logic of [App.jsx] (the board
    generator inside [handleCreateGame], the participant join effect, the
    presence ordering, [toggleCell], [updateName] and the recent boards
    preview), together with the properties the specification states about
    them.

    Conventions of the embedding.
    - A JavaScript array is a [list]; [a[i]] is stdpp's [a !! i], where
      [None] stands for [undefined].
    - A layout slot is an [option string]: [None] is the [null] gap marker.
    - [Math.random()] is a stream of rationals; the state that the code
      threads implicitly (how many numbers were consumed) is passed
      explicitly as a counter.
    - A Firestore document is a record of optional fields, the database a
      record of finite maps; a write issued by the client is a value of
      type [write], applied to the store at a server time.
    - A handler that can raise returns an [outcome]. *)

From Stdlib Require Import ZArith QArith Qround Ascii String.
From stdpp Require Import gmap strings list fin_maps pretty sorting.

#[local] Set Warnings "-clear-no-such-hyp".

Local Open Scope string_scope.
Local Open Scope list_scope.
Local Open Scope nat_scope.

(** * Part I: the program *)

(** ** Grid constants *)

Definition COLS : nat := 6.
Definition ROWS : nat := 4.
Definition TOTAL_CELLS : nat := COLS * ROWS.

(** A slot of the layout: a text item or the gap marker [null]. *)
Definition slot : Type := option string.

(** ** Randomness *)

(** The [k]-th value returned by [Math.random()], as an exact rational.
    The program multiplies in binary64, where the product is rounded
    before the floor is taken, so for a given number the index of the
    program can be one above the index computed here (0.7 * 10 is 7 in
    binary64 and below 7 exactly). For the multipliers used (at most
    99) the rounded product of a number below 1 stays below the
    multiplier, so the program and the embedding draw from the same
    range of indices, and every index of the range is drawn by both.
    The properties below depend on the range only, not on which number
    yields which index. *)
Definition random_source : Type := nat → Q.

(** The contract of [Math.random()]: a number in the interval [0, 1). *)
Definition unit_interval (rnd : random_source) : Prop :=
  ∀ k, (0 <= rnd k)%Q ∧ (rnd k < 1)%Q.

(** [Math.floor(r * m)], on the exact product. *)
Definition floor_scaled (r : Q) (m : nat) : nat :=
  Z.to_nat (Qfloor (r * inject_Z (Z.of_nat m))).

(** ** Array primitives *)

(** [[a[i], a[j]] = [a[j], a[i]]]. Both indices are inside the array at
    every call made by the shuffle when the random numbers are in
    [0, 1); outside of it JavaScript would store [undefined], which no
    caller reaches, and the embedding leaves the array as it is. *)
Definition swap {A} (i j : nat) (a : list A) : list A :=
  match a !! j, a !! i with
  | Some x, Some y => <[j := y]> (<[i := x]> a)
  | _, _ => a
  end.

(** The Fisher-Yates loop
    [for (let i = a.length - 1; i > 0; i--) {
       const j = Math.floor(Math.random() * (i + 1));
       [a[i], a[j]] = [a[j], a[i]]; }].
    [i] is the loop variable, [k] the number of random numbers consumed
    so far; the result carries the updated counter. *)
Fixpoint shuffle_from {A} (rnd : random_source) (i k : nat) (a : list A)
  : list A * nat :=
  match i with
  | 0 => (a, k)
  | S i' =>
      let j := floor_scaled (rnd k) (i + 1) in
      shuffle_from rnd i' (S k) (swap i j a)
  end.

Definition shuffle {A} (rnd : random_source) (k : nat) (a : list A)
  : list A * nat :=
  shuffle_from rnd (length a - 1) k a.

(** ** Layout generator (the body of [handleCreateGame] after validation) *)

(** [items.forEach((item, index) => rows[index % 4].push(item))],
    started at position [index]. *)
Fixpoint distribute_from (index : nat) (items : list string)
  (rows : list (list slot)) : list (list slot) :=
  match items with
  | [] => rows
  | item :: rest =>
      distribute_from (S index) rest
        (alter (λ row, row ++ [Some item]) (index mod 4) rows)
  end.

(** [const rows = [[], [], [], []]; items.forEach(...)]. *)
Definition distribute (items : list string) : list (list slot) :=
  distribute_from 0 items [[]; []; []; []].

(** [while (rowItems.length < COLS) rowItems.push(null)], with the number
    of iterations bounded by [fuel]. *)
Fixpoint fill_gaps_loop (fuel : nat) (rowItems : list slot) : list slot :=
  match fuel with
  | 0 => rowItems
  | S fuel' =>
      if length rowItems <? COLS
      then fill_gaps_loop fuel' (rowItems ++ [None])
      else rowItems
  end.

(** Each iteration adds one slot, so [COLS] iterations always reach the
    exit of the loop (lemma [fill_gaps_exits]). *)
Definition fill_gaps (rowItems : list slot) : list slot :=
  fill_gaps_loop COLS rowItems.

(** [rows.forEach(rowItems => { fill; shuffle; layout.push(...rowItems) })]. *)
Fixpoint fill_and_shuffle_rows (rnd : random_source) (k : nat)
  (rows : list (list slot)) (layout : list slot) : list slot * nat :=
  match rows with
  | [] => (layout, k)
  | rowItems :: rest =>
      let '(shuffled, k') := shuffle rnd k (fill_gaps rowItems) in
      fill_and_shuffle_rows rnd k' rest (layout ++ shuffled)
  end.

(** The rows as they are after the global shuffle and the round-robin
    distribution, before gaps are added. *)
Definition distributed_rows (rnd : random_source) (k : nat)
  (items : list string) : list (list slot) * nat :=
  let '(shuffled, k1) := shuffle rnd k items in
  (distribute shuffled, k1).

(** The whole generator: global shuffle, round-robin distribution, gap
    filling and row shuffles, concatenation. *)
Definition generate_layout (rnd : random_source) (k : nat)
  (items : list string) : list slot * nat :=
  let '(rows, k1) := distributed_rows rnd k items in
  fill_and_shuffle_rows rnd k1 rows [].

(** The non-gap values of a layout, in layout order. *)
Definition non_gaps (layout : list slot) : list string :=
  omap id layout.

(** The gap slots of a layout. *)
Definition gaps (layout : list slot) : list slot :=
  filter (λ cell, cell = None) layout.

(** Row [r] of a flat layout. *)
Definition layout_row (r : nat) (layout : list slot) : list slot :=
  take COLS (drop (r * COLS) layout).

(** ** Strings *)

(** Characters are code units below 256; the white space and line
    terminator characters of [String.prototype.trim] in that range. *)
Definition is_whitespace (c : ascii) : bool :=
  let n := nat_of_ascii c in
  (n =? 9) || (n =? 10) || (n =? 11) || (n =? 12) || (n =? 13)
  || (n =? 32) || (n =? 160).

Definition newline : ascii := ascii_of_nat 10.

Fixpoint trimStart (s : string) : string :=
  match s with
  | EmptyString => EmptyString
  | String c rest => if is_whitespace c then trimStart rest else s
  end.

Definition trimEnd (s : string) : string :=
  String.rev (trimStart (String.rev s)).

Definition trim (s : string) : string := trimEnd (trimStart s).

(** [s.split('\n')]. *)
Fixpoint split_lines (s : string) : list string :=
  match s with
  | EmptyString => [EmptyString]
  | String c rest =>
      if decide (c = newline) then EmptyString :: split_lines rest
      else match split_lines rest with
           | line :: lines => String c line :: lines
           | [] => [String c EmptyString]
           end
  end.

(** [l.join(sep)] on an array of strings. *)
Fixpoint join (sep : string) (l : list string) : string :=
  match l with
  | [] => ""
  | [x] => x
  | x :: rest => x +:+ sep +:+ join sep rest
  end.

(** ** Documents and the store *)

(** A value written for a timestamp field. *)
Inductive time_value :=
| serverTimestamp
| timeAt (ms : Z).

(** A game document as stored. *)
Record game := {
  layout : option (list slot);
  createdAt : option Z;
  creatorId : option string;
  participantCount : option Z
}.

(** A participant document as stored; [lastActive] is in milliseconds. *)
Record participant := {
  name : option string;
  checkedIndices : option (list nat);
  userId : option string;
  lastActive : option Z
}.

(** The data handed to [setDoc] for a game. *)
Record game_data := {
  d_layout : list slot;
  d_createdAt : time_value;
  d_creatorId : string;
  d_participantCount : Z
}.

(** The data handed to [setDoc] for a participant: the fields of the
    object literal that are present. *)
Record participant_data := {
  d_name : option string;
  d_checkedIndices : option (list nat);
  d_userId : option string;
  d_lastActive : option time_value
}.

(** The store operations the client issues. *)
Inductive write :=
| SetGame (gameId : string) (data : game_data)
| SetParticipant (gameId uid : string) (data : participant_data) (merge : bool)
| IncrementParticipantCount (gameId : string) (delta : Z).

Record store := {
  games : gmap string game;
  participants : gmap (string * string) participant
}.

Definition resolve_time (now : Z) (v : time_value) : Z :=
  match v with
  | serverTimestamp => now
  | timeAt ms => ms
  end.

Definition resolve_game (now : Z) (d : game_data) : game :=
  {| layout := Some (d_layout d);
     createdAt := Some (resolve_time now (d_createdAt d));
     creatorId := Some (d_creatorId d);
     participantCount := Some (d_participantCount d) |}.

Definition no_participant : participant :=
  {| name := None; checkedIndices := None; userId := None; lastActive := None |}.

(** Overlay of the written fields on a stored document
    ([setDoc(ref, data, { merge: true })]). *)
Definition merge_participant (now : Z) (d : participant_data)
  (old : participant) : participant :=
  {| name := from_option Some (name old) (d_name d);
     checkedIndices :=
       from_option Some (checkedIndices old) (d_checkedIndices d);
     userId := from_option Some (userId old) (d_userId d);
     lastActive :=
       from_option (λ v, Some (resolve_time now v)) (lastActive old)
         (d_lastActive d) |}.

(** The effect of one write on the store, at server time [now].
    [setDoc] without [merge] replaces the document; with [merge] it
    overlays the fields, creating the document if it is absent;
    [updateDoc] with [increment] fails on an absent document and leaves
    the store as it is. *)
Definition apply_write (now : Z) (w : write) (s : store) : store :=
  match w with
  | SetGame g d =>
      {| games := <[g := resolve_game now d]> (games s);
         participants := participants s |}
  | SetParticipant g u d false =>
      {| games := games s;
         participants :=
           <[(g, u) := merge_participant now d no_participant]> (participants s) |}
  | SetParticipant g u d true =>
      {| games := games s;
         participants :=
           <[(g, u) := merge_participant now d
                         (default no_participant (participants s !! (g, u)))]>
             (participants s) |}
  | IncrementParticipantCount g delta =>
      match games s !! g with
      | Some gm =>
          {| games :=
               <[g := {| layout := layout gm;
                         createdAt := createdAt gm;
                         creatorId := creatorId gm;
                         participantCount :=
                           Some (default 0%Z (participantCount gm) + delta)%Z |}]>
                 (games s);
             participants := participants s |}
      | None => s
      end
  end.

Definition apply_writes (now : Z) (ws : list write) (s : store) : store :=
  foldl (λ s w, apply_write now w s) s ws.

(** ** Client state *)

Record client := {
  user : option string;
  gameId : string;
  inputList : string;
  gameData : option game;
  myParticipantData : option participant;
  participantsView : list participant;
  newName : string
}.

(** The result of running a handler: the writes it issued, or an
    exception. *)
Inductive outcome :=
| Returned (ws : list write)
| Threw.

(** ** Display names *)

Definition ADJECTIVES : list string :=
  ["Funky"; "Grumpy"; "Cheeky"; "Sleepy"; "Hyper"; "Happy"; "Salty"; "Spicy";
   "Lucky"; "Dizzy"].
Definition COLORS : list string :=
  ["Red"; "Blue"; "Pink"; "Neon"; "Lime"; "Cosmic"; "Rusty"; "Golden";
   "Silver"; "Violet"].
Definition NOUNS : list string :=
  ["Badger"; "Cactus"; "Taco"; "Ninja"; "Panda"; "Toaster"; "Pickle";
   "Muffin"; "Wizard"; "Goose"].

(** [words[Math.floor(Math.random() * words.length)]] inside a template
    literal, where [undefined] prints as "undefined". *)
Definition pick (r : Q) (words : list string) : string :=
  default "undefined" (words !! floor_scaled r (length words)).

Definition generateFunnyName (rnd : random_source) (k : nat) : string * nat :=
  let col := pick (rnd k) COLORS in
  let adj := pick (rnd (k + 1)) ADJECTIVES in
  let noun := pick (rnd (k + 2)) NOUNS in
  let num := floor_scaled (rnd (k + 3)) 99 + 1 in
  (col +:+ "-" +:+ adj +:+ "-" +:+ noun +:+ "-" +:+ pretty num, k + 4).

(** ** Creating a game *)

Inductive view := home | create | play.

(** What a handler does besides computing: dialogs, local state updates
    and store writes, in program order. *)
Inductive effect :=
| alert (msg : string)
| setIsCreating (b : bool)
| setDoc_game (w : write)
| setGameId (id : string)
| setView (v : view)
| setErrorMsg (msg : string).

(** [inputList.split('\n').filter(line => line.trim() !== '')]. *)
Definition input_items (input : string) : list string :=
  filter (λ line, trim line ≠ "") (split_lines input).

Section create_game.

(** [Number.prototype.toString(36)] on the random number that seeds the
    game identifier; its digits depend on the floating point
    representation and are left abstract. *)
Variable toString36 : Q → string.

(** [stored] tells whether the [setDoc] of the new game succeeded. The
    result is the list of effects and the number of random numbers
    consumed when the handler returns. In the second copy of the file
    the failure is reported with a dialog instead of [setErrorMsg];
    nothing else differs. *)
Definition handleCreateGame (rnd : random_source) (k : nat) (stored : bool)
  (c : client) : list effect * nat :=
  if decide (trim (inputList c) = "") then ([], k)
  else
    let items := input_items (inputList c) in
    if (length items <? 10) || (20 <? length items)
    then ([alert "Please enter between 10 and 20 items."], k)
    else
      let '(cells, k') := generate_layout rnd k items in
      let newGameId := substring 2 7 (toString36 (rnd k')) in
      ([setIsCreating true]
      ++ match user c with
         | Some uid =>
             setDoc_game
               (SetGame newGameId
                  {| d_layout := cells;
                     d_createdAt := serverTimestamp;
                     d_creatorId := uid;
                     d_participantCount := 0 |})
             :: (if stored then [setGameId newGameId; setView play]
                 else [setErrorMsg "Failed to create game. Try again."])
         | None => [setErrorMsg "Failed to create game. Try again."]
         end
      ++ [setIsCreating false], S k').

End create_game.

(** The store writes among the effects of a handler. *)
Definition store_writes (es : list effect) : list write :=
  omap (λ e, match e with setDoc_game w => Some w | _ => None end) es.

(** ** Joining a game *)

(** The join part of the participant effect:
    [getDoc(myPartRef).then(snap => { if (!snap.exists()) {...} })],
    behind the guard [if (!gameId || !user || !gameData) return]. The
    read sees the store [s]. *)
Definition ensureJoined (rnd : random_source) (k : nat) (s : store)
  (c : client) : list write :=
  match user c, gameData c with
  | Some uid, Some _ =>
      if decide (gameId c = "") then []
      else
        match participants s !! (gameId c, uid) with
        | Some _ => []
        | None =>
            let '(initialName, _) := generateFunnyName rnd k in
            [SetParticipant (gameId c) uid
               {| d_name := Some initialName;
                  d_checkedIndices := Some [];
                  d_userId := Some uid;
                  d_lastActive := Some serverTimestamp |}
               false;
             IncrementParticipantCount (gameId c) 1]
        end
  | _, _ => []
  end.

(** ** Presence ordering *)

(** [Array.prototype.sort] with a comparator: a stable sort; [x] is put
    before the first element it does not compare greater than. *)
Fixpoint sort_insert {A} (cmp : A → A → Z) (x : A) (sorted : list A) : list A :=
  match sorted with
  | [] => [x]
  | y :: rest =>
      if (cmp x y <=? 0)%Z then x :: y :: rest
      else y :: sort_insert cmp x rest
  end.

Definition sort {A} (cmp : A → A → Z) (l : list A) : list A :=
  foldr (sort_insert cmp) [] l.

(** [p.lastActive?.toMillis() || 0]. *)
Definition toMillisOr0 (p : participant) : Z := default 0%Z (lastActive p).

(** [(a, b) => timeB - timeA]. *)
Definition byLastActiveDesc (a b : participant) : Z :=
  (toMillisOr0 b - toMillisOr0 a)%Z.

(** The ordering shown to the user. *)
Definition presence_order (parts : list participant) : list participant :=
  sort byLastActiveDesc parts.

(** The documents of the collection [participants_<g>]. *)
Definition participants_of (s : store) (g : string) : list participant :=
  (filter (λ kv, kv.1.1 = g) (map_to_list (participants s))).*2.

(** The listener of the participant collection: it records the
    caller's own document ([data.userId === user.uid]) and the sorted
    list. The listener also fills the name input with the name of that
    document when the input is empty and no edit is open
    ([if (!isEditingName && !newName) setNewName(data.name)]); whether
    an edit is open is not part of [client], and the embedding carries
    [newName] over unchanged. No property below reads [newName] of a
    client after a snapshot. *)
Definition onParticipantsSnapshot (uid : string) (docs : list participant)
  (c : client) : client :=
  {| user := user c;
     gameId := gameId c;
     inputList := inputList c;
     gameData := gameData c;
     myParticipantData :=
       foldl (λ mine data,
                if decide (userId data = Some uid) then Some data else mine)
             (myParticipantData c) docs;
     participantsView := presence_order docs;
     newName := newName c |}.

(** ** Marking a cell, changing the name *)

(** The new value of [checkedIndices]:
    [currentChecks.includes(index)
       ? currentChecks.filter(i => i !== index)
       : [...currentChecks, index]]. *)
Definition newChecks (index : nat) (currentChecks : list nat) : list nat :=
  if bool_decide (index ∈ currentChecks)
  then filter (λ i, i ≠ index) currentChecks
  else currentChecks ++ [index].

Definition toggleCell (index : nat) (c : client) : outcome :=
  match myParticipantData c with
  | None => Returned []
  | Some mine =>
      match gameData c with
      | None => Threw
      | Some g =>
          match layout g with
          | None => Threw
          | Some cells =>
              match cells !! index with
              | Some None => Returned []
              | _ =>
                  let currentChecks := default [] (checkedIndices mine) in
                  match user c with
                  | None => Threw
                  | Some uid =>
                      Returned
                        [SetParticipant (gameId c) uid
                           {| d_name := None;
                              d_checkedIndices :=
                                Some (newChecks index currentChecks);
                              d_userId := None;
                              d_lastActive := Some serverTimestamp |}
                           true]
                  end
              end
          end
      end
  end.

Definition updateName (c : client) : outcome :=
  if decide (trim (newName c) = "") then Returned []
  else
    match user c with
    | None => Threw
    | Some uid =>
        Returned
          [SetParticipant (gameId c) uid
             {| d_name := Some (newName c);
                d_checkedIndices := None;
                d_userId := None;
                d_lastActive := Some serverTimestamp |}
             true]
    end.

(** The store after a handler has run at server time [now]; a handler
    that raised wrote nothing. *)
Definition commit (now : Z) (o : outcome) (s : store) : store :=
  match o with
  | Returned ws => apply_writes now ws s
  | Threw => s
  end.

(** The client after the participant listener has received the
    documents of its game from the store. *)
Definition observe (s : store) (c : client) : client :=
  match user c with
  | Some uid => onParticipantsSnapshot uid (participants_of s (gameId c)) c
  | None => c
  end.

(** One click on a cell: the handler runs on the state of the client,
    its writes reach the store at server time [now], and the listener
    delivers the documents of the game again. *)
Definition click (index : nat) (now : Z) (w : store * client) : store * client :=
  let s' := commit now (toggleCell index w.2) w.1 in
  (s', observe s' w.2).

(** Documents carry the identity of their owner: the document stored
    under the key [uid] has no [userId] or the [userId] [uid]. Every
    write of the program keeps stores this way. *)
Definition owner_keyed (s : store) : Prop :=
  ∀ g u p, participants s !! (g, u) = Some p →
           userId p = Some u ∨ userId p = None.

(** The marked cells of a participant as a set. *)
Definition marked (p : participant) : gset nat :=
  list_to_set (default [] (checkedIndices p)).

(** The invariant of [checkedIndices] with respect to a layout: every
    index addresses a slot that holds an item, and no index is repeated. *)
Definition checks_ok (cells : list slot) (p : participant) : Prop :=
  (∀ i, i ∈ default [] (checkedIndices p) →
        i < TOTAL_CELLS ∧ ∃ item, cells !! i = Some (Some item))
  ∧ NoDup (default [] (checkedIndices p)).

(** ** Recent boards *)

Inductive direction := asc | desc.

(** [query(collection(db, ..., c), orderBy(f, d), limit(n))]. *)
Record query := {
  q_collection : string;
  q_orderBy : string;
  q_direction : direction;
  q_limit : nat
}.

(** The query of the home view. *)
Definition recentGamesQuery : query :=
  {| q_collection := "games";
     q_orderBy := "createdAt";
     q_direction := desc;
     q_limit := 6 |}.

(** The timestamp fields of a game document by name. *)
Definition game_time_field (f : string) (g : game) : option Z :=
  if decide (f = "createdAt") then createdAt g else None.

(** The comparator of an ordered query on two documents that have the
    field. *)
Definition query_order (q : query) (a b : string * game) : Z :=
  let ta := default 0%Z (game_time_field (q_orderBy q) a.2) in
  let tb := default 0%Z (game_time_field (q_orderBy q) b.2) in
  match q_direction q with
  | asc => (ta - tb)%Z
  | desc => (tb - ta)%Z
  end.

(** The store's answer to a query on the game collection: the documents
    that have the ordering field, in order, cut at the limit. *)
Definition run_query (q : query) (s : store) : list (string * game) :=
  if decide (q_collection q = "games") then
    take (q_limit q)
      (sort (query_order q)
         (filter (λ kv, is_Some (game_time_field (q_orderBy q) kv.2))
            (map_to_list (games s))))
  else [].

(** The listener of the home view:
    [snapshot.forEach(doc => games.push({ id: doc.id, ...doc.data() }))]. *)
Definition recentGames (s : store) : list (string * game) :=
  run_query recentGamesQuery s.

(** [layout.filter(x => x)]: the truthy slots, which are the non-empty
    strings; [null] and the empty string are dropped. *)
Definition truthy (x : slot) : option string :=
  match x with
  | Some item => if decide (item = "") then None else Some item
  | None => None
  end.

Definition filter_truthy (cells : list slot) : list string :=
  omap truthy cells.

(** [previewText] of [src/App.jsx]. *)
Definition previewText (g : game) : string :=
  match layout g with
  | Some cells =>
      join ", " (take 3 (filter_truthy cells))
      +:+ (if 3 <? length (filter_truthy cells) then "..." else "")
  | None => "Empty Board"
  end.

(** The preview of the second copy of the file, written inline in the
    markup: the marker is appended unconditionally. *)
Definition previewText_inline (g : game) : string :=
  match layout g with
  | Some cells => join ", " (take 3 (filter_truthy cells)) +:+ "..."
  | None => "Vacío"
  end.

(** What a card of the recent boards list shows. *)
Record card := {
  card_id : string;
  card_participantCount : Z;
  card_preview : string
}.

(** One card per entry: [g.id], [g.participantCount || 0], the preview. *)
Definition render_card (preview : game → string) (e : string * game) : card :=
  {| card_id := e.1;
     card_participantCount := default 0%Z (participantCount e.2);
     card_preview := preview e.2 |}.

Definition recent_cards (preview : game → string) (s : store) : list card :=
  render_card preview <$> recentGames s.

(** ** The create view *)

(** Truthiness of a string: [l.trim()] used as a condition. *)
Definition truthy_string (s : string) : bool :=
  negb (String.eqb s "").

(** [inputList.split('\n').filter(l => l.trim()).length], the count shown
    under the text area. *)
Definition itemCount (input : string) : nat :=
  length (filter (λ l, truthy_string (trim l)) (split_lines input)).

(** The [disabled] attribute of the generate button:
    [isCreating || itemCount < 10 || itemCount > 20]. *)
Definition createDisabled (isCreating : bool) (input : string) : bool :=
  isCreating || (itemCount input <? 10) || (20 <? itemCount input).

(** ** The game listener *)

(** The listener of the game document:
    [if (docSnap.exists()) { setGameData(docSnap.data()); setErrorMsg(''); }
     else { setErrorMsg('Game not found.'); setGameData(null); }].
    The result is the client and the error message. *)
Definition onGameSnapshot (docSnap : option game) (c : client)
  : client * string :=
  ({| user := user c;
      gameId := gameId c;
      inputList := inputList c;
      gameData := docSnap;
      myParticipantData := myParticipantData c;
      participantsView := participantsView c;
      newName := newName c |},
   match docSnap with
   | Some _ => ""
   | None => "Game not found."
   end).

(** ** The board and the participant cards *)

(** A cell of the board as it is drawn: a gap, which has no handler, or
    an item with its check mark and the index its [onClick] passes to
    [toggleCell]. *)
Inductive board_cell :=
| gap_cell
| item_cell (item : string) (isChecked : bool) (onClick : nat).

(** [myParticipantData?.checkedIndices?.includes(idx)]. *)
Definition isChecked (mine : option participant) (idx : nat) : bool :=
  match mine with
  | Some p =>
      match checkedIndices p with
      | Some checks => bool_decide (idx ∈ checks)
      | None => false
      end
  | None => false
  end.

(** [gameData.layout.map((item, idx) => ...)] of the play view. *)
Definition board (cells : list slot) (mine : option participant)
  : list board_cell :=
  imap (λ idx item,
          match item with
          | None => gap_cell
          | Some text => item_cell text (isChecked mine idx) idx
          end) cells.

(** The indices the board can pass to [toggleCell]. *)
Definition board_clicks (cells : list slot) (mine : option participant)
  : list nat :=
  omap (λ cell, match cell with
                | item_cell _ _ idx => Some idx
                | gap_cell => None
                end) (board cells mine).

(** The background of a cell of [MiniGrid]: white, then gray for a gap,
    then green for a marked cell, the later assignment winning. *)
Inductive background := bg_white | bg_gray | bg_green.

#[global] Instance background_eq_dec : EqDecision background.
Proof. solve_decision. Defined.

Definition miniGrid (cells : list slot) (checks : list nat) : list background :=
  imap (λ idx cell,
          if bool_decide (idx ∈ checks) then bg_green
          else match cell with
               | None => bg_gray
               | Some _ => bg_white
               end) cells.

(** The two numbers of the progress bar of a participant card:
    [(p.checkedIndices || []).length] and
    [TOTAL_CELLS - gameData.layout.filter(x => x === null).length]. *)
Definition progress_parts (cells : list slot) (p : participant) : nat * nat :=
  (length (default [] (checkedIndices p)), TOTAL_CELLS - length (gaps cells)).

(** ** Notions used to state the properties *)

(** How many positions [j] with [index <= j < index + n] have
    [j mod 4 = r]. *)
Definition share (index n r : nat) : nat :=
  (index + n + 3 - r) / 4 - (index + 3 - r) / 4.

(** The invariant of [checkedIndices] kept by a click whatever index
    is passed to the handler. *)
Definition click_keeps_checks_for_every_index : Prop :=
  ∀ now s c uid g cells stored mine i,
    user c = Some uid → gameData c = Some g → layout g = Some cells →
    length cells = TOTAL_CELLS →
    participants s !! (gameId c, uid) = Some stored →
    myParticipantData c = Some mine →
    checks_ok cells stored → checks_ok cells mine →
    ∃ p, participants (commit now (toggleCell i c) s)
           !! (gameId c, uid) = Some p
         ∧ checks_ok cells p.

(** A handler shows an error to its user. *)
Definition shows_error (es : list effect) : Prop :=
  ∃ msg, alert msg ∈ es.

(** The rejection of a list that is too short or too long, with the
    error shown in every such case: nothing is generated (no random
    number is consumed), nothing is written, and a dialog opens. *)
Definition rejection_always_shown : Prop :=
  ∀ (toString36 : Q → string) rnd k stored c,
    let n := length (input_items (inputList c)) in
    n < 10 ∨ 20 < n →
    let r := handleCreateGame toString36 rnd k stored c in
    r.2 = k ∧ store_writes r.1 = [] ∧ shows_error r.1.

(** A client in the create view with the given text typed in. *)
Definition typing (input : string) : client :=
  {| user := Some "u1";
     gameId := "";
     inputList := input;
     gameData := None;
     myParticipantData := None;
     participantsView := [];
     newName := "" |}.

(** A string made of white space only. *)
Fixpoint all_whitespace (s : string) : bool :=
  match s with
  | EmptyString => true
  | String c rest => is_whitespace c && all_whitespace rest
  end.

(** [a] may stand before [b] in an ordering that puts larger keys
    first. *)
Definition descending {A} (key : A → Z) (a b : A) : Prop :=
  (key b ≤ key a)%Z.

(** A source of random numbers to run the program on: 0, 1/7, ..., 6/7
    in turn. *)
Definition sample_source : random_source :=
  λ k, (Z.of_nat (k mod 7) # 7)%Q.

(** Sample data: a generated board, its game document, one participant
    who has marked cell 1, and that participant's client. *)
Definition sample_items : list string :=
  ["a"; "b"; "c"; "d"; "e"; "f"; "g"; "h"; "i"; "j"; "k"].

Definition sample_cells : list slot :=
  (generate_layout sample_source 0 sample_items).1.

Definition sample_game : game :=
  {| layout := Some sample_cells;
     createdAt := Some 1000%Z;
     creatorId := Some "u0";
     participantCount := Some 1%Z |}.

Definition sample_me : participant :=
  {| name := Some "Red-Funky-Badger-7";
     checkedIndices := Some [1];
     userId := Some "u1";
     lastActive := Some 1500%Z |}.

Definition sample_store : store :=
  {| games := {["g1" := sample_game]};
     participants := {[("g1", "u1") := sample_me]} |}.

Definition sample_client : client :=
  {| user := Some "u1";
     gameId := "g1";
     inputList := "";
     gameData := Some sample_game;
     myParticipantData := Some sample_me;
     participantsView := [sample_me];
     newName := "Red-Funky-Badger-7" |}.

(** The same client before its own document has arrived. *)
Definition sample_newcomer : client :=
  {| user := Some "u2";
     gameId := "g1";
     inputList := "";
     gameData := Some sample_game;
     myParticipantData := None;
     participantsView := [];
     newName := "" |}.

(** Two more participants of the sample game: one active after
    [sample_me], one whose document has no [lastActive] yet. *)
Definition sample_other : participant :=
  {| name := Some "Blue-Lucky-Goose-12";
     checkedIndices := Some [];
     userId := Some "u3";
     lastActive := Some 1800%Z |}.

Definition sample_pending : participant :=
  {| name := Some "Pink-Dizzy-Taco-3";
     checkedIndices := Some [];
     userId := Some "u4";
     lastActive := None |}.

(** The documents of the other participants of game [g]: all but the
    one of user [u]. *)
Definition others_of (s : store) (g u : string) : list participant :=
  participants_of
    {| games := games s; participants := delete (g, u) (participants s) |} g.

(** The counter of game [g] agrees with the number of participant
    documents of the game. *)
Definition count_consistent (s : store) (g : string) : Prop :=
  ∃ gm, games s !! g = Some gm
        ∧ participantCount gm = Some (Z.of_nat (length (participants_of s g))).

(** A text of ten lines, two of them blank lines in between. *)
Definition sample_input : string :=
  "one
two
three

four
five
six
   
seven
eight
nine
ten".

(** The sample game with two participants, [sample_me] and
    [sample_other], and a counter of 2. *)
Definition sample_room : store :=
  {| games :=
       {["g1" := {| layout := Some sample_cells;
                    createdAt := Some 1000%Z;
                    creatorId := Some "u0";
                    participantCount := Some 2%Z |}]};
     participants :=
       <[("g1", "u3") := sample_other]> {[("g1", "u1") := sample_me]} |}.

(** A write that stays with its author: it goes to the participant
    document of user [uid] in game [g], or adds 1 to the counter of
    game [g]. *)
Definition writes_own (g uid : string) (w : write) : Prop :=
  match w with
  | SetGame _ _ => False
  | SetParticipant g' u' _ _ => g' = g ∧ u' = uid
  | IncrementParticipantCount g' delta => g' = g ∧ delta = 1%Z
  end.

(** * Part II: properties *)

(** ** Random indices *)

Lemma floor_scaled_lt r m :
  (0 <= r)%Q → (r < 1)%Q → 0 < m → floor_scaled r m < m.
Proof.
  intros H0 H1 Hm. unfold floor_scaled.
  set (q := (r * inject_Z (Z.of_nat m))%Q).
  assert (Hlt : (q < inject_Z (Z.of_nat m))%Q).
  { unfold q. rewrite <- (Qmult_1_l (inject_Z (Z.of_nat m))) at 2.
    apply Qmult_lt_compat_r; [|done].
    change 0%Q with (inject_Z 0). rewrite <- Zlt_Qlt. lia. }
  assert (Hge : (0 <= q)%Q).
  { apply Qmult_le_0_compat; [done|].
    change 0%Q with (inject_Z 0). rewrite <- Zle_Qle. lia. }
  assert (Hf : (Qfloor q < Z.of_nat m)%Z).
  { rewrite Zlt_Qlt. eapply Qle_lt_trans; [apply Qfloor_le|done]. }
  assert (Hf0 : (0 <= Qfloor q)%Z).
  { rewrite <- (Qfloor_Z 0). by apply Qfloor_resp_le. }
  lia.
Qed.

(** ** Swapping and shuffling *)

Lemma insert_Permutation_delete {A} (a : list A) i x :
  i < length a → <[i := x]> a ≡ₚ x :: delete i a.
Proof.
  intros Hi. rewrite insert_take_drop, delete_take_drop by done.
  symmetry. apply Permutation_middle.
Qed.

Lemma swap_length {A} i j (a : list A) : length (swap i j a) = length a.
Proof.
  unfold swap. destruct (a !! j), (a !! i); [|done..].
  by rewrite !length_insert.
Qed.

Lemma swap_Permutation {A} i j (a : list A) : swap i j a ≡ₚ a.
Proof.
  unfold swap.
  destruct (a !! j) as [x|] eqn:Hj; [|done].
  destruct (a !! i) as [y|] eqn:Hi; [|done].
  destruct (decide (i = j)) as [->|Hne].
  { assert (x = y) as -> by congruence.
    by rewrite list_insert_insert_eq, list_insert_id. }
  pose proof (lookup_lt_Some _ _ _ Hi) as Hil.
  pose proof (lookup_lt_Some _ _ _ Hj) as Hjl.
  set (b := <[i := x]> a).
  assert (Hbj : b !! j = Some x).
  { unfold b. by rewrite list_lookup_insert_ne. }
  assert (Hb : b ≡ₚ x :: delete i a)
    by (by apply insert_Permutation_delete).
  assert (Hdel : delete j b ≡ₚ delete i a).
  { apply (Permutation_cons_inv (a := x)).
    rewrite <- Hb. symmetry. by apply delete_Permutation. }
  rewrite insert_Permutation_delete
    by (unfold b; by rewrite length_insert).
  rewrite Hdel. symmetry. by apply delete_Permutation.
Qed.

Lemma shuffle_from_Permutation {A} rnd i k (a : list A) :
  (shuffle_from rnd i k a).1 ≡ₚ a.
Proof.
  revert k a. induction i as [|i IH]; intros k a; simpl; [done|].
  rewrite IH. apply swap_Permutation.
Qed.

Lemma shuffle_from_counter {A} rnd i k (a : list A) :
  (shuffle_from rnd i k a).2 = k + i.
Proof.
  revert k a. induction i as [|i IH]; intros k a; simpl; [lia|].
  rewrite IH. lia.
Qed.

Lemma shuffle_Permutation {A} rnd k (a : list A) : (shuffle rnd k a).1 ≡ₚ a.
Proof. apply shuffle_from_Permutation. Qed.

Lemma shuffle_length {A} rnd k (a : list A) :
  length (shuffle rnd k a).1 = length a.
Proof. by rewrite shuffle_Permutation. Qed.

(** Every swap of the loop is between two positions of the array: the
    case of [swap] that leaves the array alone is never taken. *)
Lemma shuffle_swaps_in_range rnd i k n :
  unit_interval rnd → i < n →
  floor_scaled (rnd k) (i + 1) < n.
Proof.
  intros Hrnd Hi. destruct (Hrnd k) as [H0 H1].
  pose proof (floor_scaled_lt (rnd k) (i + 1) H0 H1). lia.
Qed.

(** ** Round-robin distribution *)

Lemma share_0 index r : share index 0 r = 0.
Proof. unfold share. rewrite Nat.add_0_r. lia. Qed.

Lemma share_S index n r :
  r < 4 →
  share index (S n) r =
    (if decide (index mod 4 = r) then 1 else 0) + share (S index) n r.
Proof.
  intros Hr. unfold share.
  replace (S index + n + 3 - r) with (index + S n + 3 - r) by lia.
  assert (H1 : (index + 3 - r) / 4 ≤ (S index + 3 - r) / 4)
    by (apply Nat.Div0.div_le_mono; lia).
  assert (H2 : (S index + 3 - r) / 4 ≤ (index + S n + 3 - r) / 4)
    by (apply Nat.Div0.div_le_mono; lia).
  enough ((S index + 3 - r) / 4 =
          (if decide (index mod 4 = r) then 1 else 0) + (index + 3 - r) / 4)
    by lia.
  pose proof (Nat.div_mod index 4).
  pose proof (Nat.mod_upper_bound index 4).
  pose proof (Nat.div_mod (S index + 3 - r) 4).
  pose proof (Nat.mod_upper_bound (S index + 3 - r) 4).
  pose proof (Nat.div_mod (index + 3 - r) 4).
  pose proof (Nat.mod_upper_bound (index + 3 - r) 4).
  case_decide; lia.
Qed.

Lemma distribute_from_length index items rows :
  length (distribute_from index items rows) = length rows.
Proof.
  revert index rows. induction items as [|item rest IH]; intros; simpl; [done|].
  by rewrite IH, length_alter.
Qed.

Lemma alter_push_concat {A} (rows : list (list A)) i x :
  i < length rows →
  concat (alter (λ row, row ++ [x]) i rows) ≡ₚ x :: concat rows.
Proof.
  revert i. induction rows as [|row rows IH]; intros i Hi; simpl in *; [lia|].
  destruct i as [|i].
  - simpl. rewrite <- app_assoc. simpl. symmetry. apply Permutation_middle.
  - change (row ++ concat (alter (λ row, row ++ [x]) i rows)
            ≡ₚ x :: row ++ concat rows).
    rewrite IH by lia. symmetry. apply Permutation_middle.
Qed.

Lemma distribute_from_concat index items rows :
  length rows = 4 →
  concat (distribute_from index items rows)
    ≡ₚ concat rows ++ (Some <$> items).
Proof.
  revert index rows. induction items as [|item rest IH]; intros index rows Hl.
  - simpl. by rewrite app_nil_r.
  - cbn [distribute_from]. rewrite IH by (by rewrite length_alter).
    rewrite alter_push_concat
      by (rewrite Hl; apply Nat.mod_upper_bound; lia).
    rewrite fmap_cons. simpl. apply Permutation_middle.
Qed.

Lemma distribute_from_row index items rows r row :
  r < 4 → rows !! r = Some row →
  ∃ row', distribute_from index items rows !! r = Some row'
          ∧ length row' = length row + share index (length items) r.
Proof.
  intros Hr. revert index rows row.
  induction items as [|item rest IH]; intros index rows row Hrow;
    cbn [distribute_from length].
  - exists row. by rewrite share_0, Nat.add_0_r.
  - rewrite share_S by done.
    destruct (decide (index mod 4 = r)) as [Heq|Hne].
    + destruct (IH (S index)
                  (alter (λ row0, row0 ++ [Some item]) (index mod 4) rows)
                  (row ++ [Some item])) as (row' & Hrow' & Hlen).
      { rewrite Heq, list_lookup_alter_eq, Hrow. done. }
      exists row'. split; [done|]. rewrite Hlen, length_app. simpl. lia.
    + destruct (IH (S index)
                  (alter (λ row0, row0 ++ [Some item]) (index mod 4) rows)
                  row) as (row' & Hrow' & Hlen).
      { by rewrite list_lookup_alter_ne. }
      exists row'. split; [done|]. lia.
Qed.

Lemma distribute_length items : length (distribute items) = 4.
Proof. unfold distribute. by rewrite distribute_from_length. Qed.

Lemma distribute_row items r :
  r < 4 →
  ∃ row, distribute items !! r = Some row
         ∧ length row = (length items + 3 - r) / 4.
Proof.
  intros Hr.
  destruct (distribute_from_row 0 items [[]; []; []; []] r [] Hr)
    as (row & Hrow & Hlen).
  { do 4 (destruct r as [|r]; [done|]). lia. }
  exists row. split; [done|]. rewrite Hlen. unfold share.
  rewrite (Nat.div_small (0 + 3 - r) 4) by lia.
  cbn [length]. rewrite Nat.add_0_l, Nat.sub_0_r. done.
Qed.

Lemma distribute_row_inv items r row :
  distribute items !! r = Some row →
  r < 4 ∧ length row = (length items + 3 - r) / 4.
Proof.
  intros Hrow.
  assert (Hr : r < 4).
  { rewrite <- (distribute_length items). by eapply lookup_lt_Some. }
  split; [done|].
  destruct (distribute_row items r Hr) as (row' & Hrow' & Hlen). congruence.
Qed.

Lemma distribute_concat items : concat (distribute items) ≡ₚ Some <$> items.
Proof. unfold distribute. by rewrite distribute_from_concat. Qed.

(** ** Gap filling *)

Lemma fill_gaps_loop_eq fuel row :
  fill_gaps_loop fuel row
  = row ++ replicate (fuel `min` (COLS - length row)) None.
Proof.
  revert row. induction fuel as [|fuel IH]; intros row; cbn [fill_gaps_loop].
  - by rewrite app_nil_r.
  - destruct (length row <? COLS) eqn:Hlt.
    + apply Nat.ltb_lt in Hlt. rewrite IH, length_app, <- app_assoc.
      cbn [length app].
      replace (S fuel `min` (COLS - length row))
        with (S (fuel `min` (COLS - (length row + 1)))) by lia.
      done.
    + apply Nat.ltb_ge in Hlt.
      replace (COLS - length row) with 0 by lia.
      rewrite Nat.min_0_r. by rewrite app_nil_r.
Qed.

Lemma fill_gaps_eq row :
  fill_gaps row = row ++ replicate (COLS - length row) None.
Proof.
  unfold fill_gaps. rewrite fill_gaps_loop_eq. do 2 f_equal. lia.
Qed.

(** The bound on the iterations is never what stops the loop: on exit
    the loop condition is false. *)
Lemma fill_gaps_exits row : (length (fill_gaps row) <? COLS) = false.
Proof.
  rewrite fill_gaps_eq, length_app, length_replicate.
  apply Nat.ltb_ge. lia.
Qed.

Lemma fill_gaps_length row :
  length row ≤ COLS → length (fill_gaps row) = COLS.
Proof.
  intros H. rewrite fill_gaps_eq, length_app, length_replicate. lia.
Qed.

Lemma non_gaps_app l1 l2 : non_gaps (l1 ++ l2) = non_gaps l1 ++ non_gaps l2.
Proof. apply omap_app. Qed.

Lemma non_gaps_replicate_None n : non_gaps (replicate n None) = [].
Proof. induction n; simpl; [done|]. apply IHn. Qed.

Lemma non_gaps_Some items : non_gaps (Some <$> items) = items.
Proof.
  induction items as [|x items IH]; [done|].
  unfold non_gaps in *. rewrite fmap_cons. cbn [omap list_omap id].
  by rewrite IH.
Qed.

Lemma non_gaps_fill_gaps row : non_gaps (fill_gaps row) = non_gaps row.
Proof.
  by rewrite fill_gaps_eq, non_gaps_app, non_gaps_replicate_None, app_nil_r.
Qed.

Lemma non_gaps_gaps_length cells :
  length (non_gaps cells) + length (gaps cells) = length cells.
Proof.
  unfold non_gaps, gaps. induction cells as [|c cells IH]; [done|].
  rewrite filter_cons. destruct c as [x|].
  - rewrite decide_False by done. cbn [omap list_omap id length Nat.add].
    f_equal. exact IH.
  - rewrite decide_True by done. cbn [omap list_omap id length].
    rewrite Nat.add_succ_r. f_equal. exact IH.
Qed.

(** ** Rows of the finished layout *)

Lemma fill_and_shuffle_rows_spec rnd k rows cells :
  ∃ rows',
    Forall2 (λ row row', row' ≡ₚ fill_gaps row) rows rows'
    ∧ (fill_and_shuffle_rows rnd k rows cells).1 = cells ++ concat rows'.
Proof.
  revert k cells. induction rows as [|row rows IH]; intros k cells.
  - exists []. split; [constructor|]. simpl. by rewrite app_nil_r.
  - cbn [fill_and_shuffle_rows].
    pose proof (shuffle_Permutation rnd k (fill_gaps row)) as Hsh.
    destruct (shuffle rnd k (fill_gaps row)) as [sh k'].
    destruct (IH k' (cells ++ sh)) as (rows' & Hrows' & Heq).
    exists (sh :: rows'). split; [by constructor|].
    rewrite Heq. simpl. by rewrite <- app_assoc.
Qed.

Lemma concat_row_lookup {A} c (rows : list (list A)) r row :
  Forall (λ row, length row = c) rows →
  rows !! r = Some row →
  take c (drop (r * c) (concat rows)) = row.
Proof.
  intros Hall. revert r. induction Hall as [|row0 rows Hlen Hall IH];
    intros r Hr; [done|].
  destruct r as [|r]; simpl in Hr.
  - injection Hr as ->. cbn [Nat.mul drop concat].
    by apply take_app_length'.
  - cbn [concat]. replace (S r * c) with (length row0 + r * c) by lia.
    rewrite <- drop_drop, drop_app_length. by apply IH.
Qed.

Lemma concat_length_uniform {A} c (rows : list (list A)) :
  Forall (λ row, length row = c) rows →
  length (concat rows) = length rows * c.
Proof.
  induction 1 as [|row rows Hlen _ IH]; [done|].
  cbn [concat length]. rewrite length_app, IH, Hlen. lia.
Qed.

(** The generator returns the concatenation of four rows, each a
    rearrangement of the gap-filled bucket of the same number. *)
Lemma generate_layout_rows rnd k items :
  ∃ rows',
    (generate_layout rnd k items).1 = concat rows'
    ∧ Forall2 (λ row row', row' ≡ₚ fill_gaps row)
        (distributed_rows rnd k items).1 rows'.
Proof.
  unfold generate_layout.
  destruct (distributed_rows rnd k items) as [rows k1].
  destruct (fill_and_shuffle_rows_spec rnd k1 rows []) as (rows' & H2 & Heq).
  exists rows'. split; [by rewrite Heq|done].
Qed.

Lemma distributed_rows_eq rnd k items :
  (distributed_rows rnd k items).1 = distribute (shuffle rnd k items).1.
Proof.
  unfold distributed_rows. by destruct (shuffle rnd k items).
Qed.

Lemma distributed_rows_length rnd k items :
  length (distributed_rows rnd k items).1 = 4.
Proof. rewrite distributed_rows_eq. apply distribute_length. Qed.

Lemma distributed_row_length rnd k items r row :
  (distributed_rows rnd k items).1 !! r = Some row →
  r < 4 ∧ length row = (length items + 3 - r) / 4.
Proof.
  rewrite distributed_rows_eq. intros H%distribute_row_inv.
  by rewrite shuffle_length in H.
Qed.

Lemma non_gaps_concat rows :
  non_gaps (concat rows) = concat (non_gaps <$> rows).
Proof.
  induction rows as [|row rows IH]; [done|].
  cbn [concat]. rewrite non_gaps_app, IH. done.
Qed.

Lemma non_gaps_Permutation l1 l2 : l1 ≡ₚ l2 → non_gaps l1 ≡ₚ non_gaps l2.
Proof. intros H. unfold non_gaps. by rewrite H. Qed.

Lemma generate_layout_non_gaps rnd k items :
  non_gaps (generate_layout rnd k items).1 ≡ₚ items.
Proof.
  destruct (generate_layout_rows rnd k items) as (rows' & -> & H2).
  rewrite distributed_rows_eq in H2.
  transitivity (non_gaps (concat (distribute (shuffle rnd k items).1))).
  - rewrite !non_gaps_concat.
    induction H2 as [|row row' rows rows' Hrow _ IH]; [done|].
    rewrite !fmap_cons. cbn [concat].
    rewrite IH. apply Permutation_app_tail.
    rewrite (non_gaps_Permutation _ _ Hrow). by rewrite non_gaps_fill_gaps.
  - rewrite (non_gaps_Permutation _ _ (distribute_concat _)).
    rewrite non_gaps_Some. apply shuffle_Permutation.
Qed.

Lemma generate_layout_elem rnd k items item :
  Some item ∈ (generate_layout rnd k items).1 ↔ item ∈ items.
Proof.
  pose proof (generate_layout_non_gaps rnd k items) as Hperm.
  set (cells := (generate_layout rnd k items).1) in *.
  rewrite <- Hperm. unfold non_gaps.
  rewrite list_elem_of_omap. split.
  - intros H. by exists (Some item).
  - by intros ([x|] & Hx & [= ->]).
Qed.

Lemma generate_layout_row_lengths rnd k items :
  length items ≤ 24 →
  ∃ rows',
    (generate_layout rnd k items).1 = concat rows'
    ∧ Forall2 (λ row row', row' ≡ₚ fill_gaps row)
        (distributed_rows rnd k items).1 rows'
    ∧ length rows' = 4
    ∧ Forall (λ row', length row' = COLS) rows'.
Proof.
  intros Hn.
  destruct (generate_layout_rows rnd k items) as (rows' & Heq & H2).
  exists rows'. split_and!; [done..| |].
  - rewrite <- (Forall2_length _ _ _ H2). apply distributed_rows_length.
  - apply Forall_lookup. intros r row' Hrow'.
    destruct (Forall2_lookup_r _ _ _ _ _ H2 Hrow') as (row & Hrow & Hperm).
    apply distributed_row_length in Hrow as [Hr Hlen].
    rewrite Hperm. apply fill_gaps_length. rewrite Hlen. unfold COLS.
    apply Nat.lt_succ_r, Nat.Div0.div_lt_upper_bound. lia.
Qed.

Lemma generate_layout_length rnd k items :
  length items ≤ 24 → length (generate_layout rnd k items).1 = 24.
Proof.
  intros Hn.
  destruct (generate_layout_row_lengths rnd k items Hn)
    as (rows' & -> & _ & Hlen & Hall).
  by rewrite (concat_length_uniform COLS), Hlen.
Qed.

Lemma generate_layout_row rnd k items r row :
  length items ≤ 24 →
  (distributed_rows rnd k items).1 !! r = Some row →
  layout_row r (generate_layout rnd k items).1 ≡ₚ fill_gaps row.
Proof.
  intros Hn Hrow.
  destruct (generate_layout_row_lengths rnd k items Hn)
    as (rows' & -> & H2 & Hlen & Hall).
  destruct (Forall2_lookup_l _ _ _ _ _ H2 Hrow) as (row' & Hrow' & Hperm).
  unfold layout_row. by rewrite (concat_row_lookup COLS rows' r row').
Qed.

Lemma distribute_from_keeps index items rows r row x :
  rows !! r = Some row → x ∈ row →
  ∃ row', distribute_from index items rows !! r = Some row' ∧ x ∈ row'.
Proof.
  revert index rows row.
  induction items as [|item rest IH]; intros index rows row Hrow Hx;
    cbn [distribute_from]; [by exists row|].
  destruct (decide (index mod 4 = r)) as [Heq|Hne].
  - apply (IH _ _ (row ++ [Some item])).
    + by rewrite Heq, list_lookup_alter_eq, Hrow.
    + apply elem_of_app. by left.
  - apply (IH _ _ row); [|done]. by rewrite list_lookup_alter_ne.
Qed.

(** The item at position [j] of the distributed array lands in bucket
    [(index + j) mod 4]. *)
Lemma distribute_from_position index items rows j item :
  length rows = 4 → items !! j = Some item →
  ∃ row, distribute_from index items rows !! ((index + j) mod 4) = Some row
         ∧ Some item ∈ row.
Proof.
  revert index rows j.
  induction items as [|item0 rest IH]; intros index rows j Hl Hj; [done|].
  cbn [distribute_from]. destruct j as [|j].
  - injection Hj as ->. rewrite Nat.add_0_r.
    assert (Hlt : index mod 4 < length rows)
      by (rewrite Hl; apply Nat.mod_upper_bound; lia).
    destruct (lookup_lt_is_Some_2 _ _ Hlt) as [row Hrow].
    apply (distribute_from_keeps _ _ _ _ (row ++ [Some item])).
    + by rewrite list_lookup_alter_eq, Hrow.
    + apply elem_of_app. right. by apply list_elem_of_singleton.
  - replace (index + S j) with (S index + j) by lia.
    apply IH; [by rewrite length_alter|done].
Qed.

Lemma distribute_from_items index items rows :
  Forall (Forall is_Some) rows →
  Forall (Forall is_Some) (distribute_from index items rows).
Proof.
  revert index rows.
  induction items as [|item rest IH]; intros index rows Hrows;
    cbn [distribute_from]; [done|].
  apply IH. apply Forall_alter; [done|].
  intros row _ Hrow. apply Forall_app. split; [done|].
  by repeat constructor.
Qed.

Lemma non_gaps_all_items row :
  Forall is_Some row → length (non_gaps row) = length row.
Proof.
  unfold non_gaps. induction 1 as [|c row [x ->] _ IH]; [done|].
  cbn [omap list_omap id length]. by rewrite IH.
Qed.

Lemma distribute_items_only items r row :
  distribute items !! r = Some row → length (non_gaps row) = length row.
Proof.
  intros Hrow. apply non_gaps_all_items.
  assert (H : Forall (Forall is_Some) (distribute items)).
  { apply distribute_from_items. by repeat constructor. }
  by apply (Forall_lookup_1 _ _ _ _ H Hrow).
Qed.

Lemma quarter_floor_or_ceil n r :
  r < 4 → (n + 3 - r) / 4 = n / 4 ∨ (n + 3 - r) / 4 = (n + 3) / 4.
Proof.
  intros Hr.
  pose proof (Nat.div_mod n 4). pose proof (Nat.mod_upper_bound n 4).
  pose proof (Nat.div_mod (n + 3) 4).
  pose proof (Nat.mod_upper_bound (n + 3) 4).
  pose proof (Nat.div_mod (n + 3 - r) 4).
  pose proof (Nat.mod_upper_bound (n + 3 - r) 4).
  lia.
Qed.

Lemma quarter_close n r1 r2 :
  r1 < 4 → r2 < 4 → (n + 3 - r1) / 4 ≤ (n + 3 - r2) / 4 + 1.
Proof.
  intros Hr1 Hr2.
  pose proof (Nat.div_mod (n + 3 - r1) 4).
  pose proof (Nat.mod_upper_bound (n + 3 - r1) 4).
  pose proof (Nat.div_mod (n + 3 - r2) 4).
  pose proof (Nat.mod_upper_bound (n + 3 - r2) 4).
  lia.
Qed.

Lemma sample_source_unit_interval : unit_interval sample_source.
Proof.
  intros k. unfold sample_source, Qle, Qlt. simpl.
  pose proof (Nat.mod_upper_bound k 7). lia.
Qed.

(** ** The generated layout *)

(** C1. For a list of [n] distinct items, [10 <= n <= 20], and every
    outcome of the random numbers (each in [0, 1), which keeps every
    swap inside its array), the generated layout has 24 slots,
    [n] of them items and [24 - n] gaps, and its items are the input
    items, each exactly once (the item slots are a rearrangement of the
    input and hold no value twice). *)
Theorem generated_layout_items rnd k items :
  unit_interval rnd →
  NoDup items →
  10 ≤ length items ≤ 20 →
  let cells := (generate_layout rnd k items).1 in
  length cells = 24
  ∧ length (non_gaps cells) = length items
  ∧ length (gaps cells) = 24 - length items
  ∧ non_gaps cells ≡ₚ items
  ∧ NoDup (non_gaps cells)
  ∧ (∀ item, Some item ∈ cells ↔ item ∈ items).
Proof.
  intros _ Hnd Hn cells.
  pose proof (generate_layout_non_gaps rnd k items) as Hperm.
  pose proof (generate_layout_length rnd k items ltac:(lia)) as Hlen.
  pose proof (non_gaps_gaps_length cells) as Hsum.
  fold cells in Hperm, Hlen.
  assert (Hcount : length (non_gaps cells) = length items) by by rewrite Hperm.
  split_and!; [done|done|lia|done|by rewrite Hperm|].
  intros item. apply generate_layout_elem.
Qed.

Lemma generated_layout_items_witness :
  let items := ["a"; "b"; "c"; "d"; "e"; "f"; "g"; "h"; "i"; "j"; "k"] in
  let cells := (generate_layout sample_source 0 items).1 in
  unit_interval sample_source
  ∧ 10 ≤ length items ≤ 20
  ∧ length cells = 24
  ∧ length (non_gaps cells) = 11
  ∧ length (gaps cells) = 13
  ∧ non_gaps cells ≡ₚ items.
Proof.
  intros items cells.
  assert (Hnd : NoDup items)
    by (apply (bool_decide_unpack (NoDup items)); vm_compute; exact I).
  assert (Hn : 10 ≤ length items ≤ 20) by (simpl; lia).
  destruct (generated_layout_items sample_source 0 items
              sample_source_unit_interval Hnd Hn)
    as (H1 & H2 & H3 & H4 & _).
  split; [exact sample_source_unit_interval|].
  split; [exact Hn|].
  split; [exact H1|]. split; [exact H2|]. split; [exact H3|exact H4].
Defined.

(** ** Balance of the rows *)

(** C5. For [10 <= n <= 20] the item at position [j] after the global
    shuffle goes to bucket [j mod 4]; every bucket receives [n / 4] or
    [(n + 3) / 4] (the floor and the ceiling of a quarter of [n]) items,
    two buckets differ by at most one item, and every row is 6 slots
    long once the gaps are added, in the bucket and in the finished
    layout. *)
Theorem rows_balanced rnd k items :
  unit_interval rnd →
  10 ≤ length items ≤ 20 →
  let n := length items in
  let shuffled := (shuffle rnd k items).1 in
  let rows := (distributed_rows rnd k items).1 in
  let cells := (generate_layout rnd k items).1 in
  length rows = 4
  ∧ (∀ j item, shuffled !! j = Some item →
       ∃ row, rows !! (j mod 4) = Some row ∧ Some item ∈ row)
  ∧ (∀ r row, rows !! r = Some row →
       (length row = n / 4 ∨ length row = (n + 3) / 4)
       ∧ length (non_gaps row) = length row
       ∧ length (fill_gaps row) = 6
       ∧ length (layout_row r cells) = 6
       ∧ length (non_gaps (layout_row r cells)) = length row)
  ∧ (∀ r1 r2 row1 row2, rows !! r1 = Some row1 → rows !! r2 = Some row2 →
       length row1 ≤ length row2 + 1).
Proof.
  intros _ Hn n shuffled rows cells. split_and!.
  - apply distributed_rows_length.
  - intros j item Hj. unfold rows. rewrite distributed_rows_eq.
    apply (distribute_from_position 0 _ _ j item); [done|exact Hj].
  - intros r row Hrow.
    pose proof (distributed_row_length _ _ _ _ _ Hrow) as [Hr Hlen].
    pose proof (generate_layout_row rnd k items r row ltac:(lia) Hrow) as Hperm.
    fold cells in Hperm.
    assert (Hle : length row ≤ COLS).
    { rewrite Hlen. unfold COLS.
      apply Nat.lt_succ_r, Nat.Div0.div_lt_upper_bound. lia. }
    assert (Hitems : length (non_gaps row) = length row).
    { unfold rows in Hrow. rewrite distributed_rows_eq in Hrow.
      apply (distribute_items_only _ _ _ Hrow). }
    split_and!.
    + rewrite Hlen. by apply quarter_floor_or_ceil.
    + done.
    + by apply fill_gaps_length.
    + rewrite Hperm. by apply fill_gaps_length.
    + by rewrite (non_gaps_Permutation _ _ Hperm), non_gaps_fill_gaps.
  - intros r1 r2 row1 row2 H1 H2.
    apply distributed_row_length in H1 as [Hr1 ->].
    apply distributed_row_length in H2 as [Hr2 ->].
    by apply quarter_close.
Qed.

Lemma rows_balanced_witness :
  let items := ["a"; "b"; "c"; "d"; "e"; "f"; "g"; "h"; "i"; "j"] in
  let rows := (distributed_rows sample_source 3 items).1 in
  unit_interval sample_source
  ∧ 10 ≤ length items ≤ 20
  ∧ length rows = 4
  ∧ (∀ r1 r2 row1 row2, rows !! r1 = Some row1 → rows !! r2 = Some row2 →
       length row1 ≤ length row2 + 1).
Proof.
  intros items rows.
  assert (Hn : 10 ≤ length items ≤ 20) by (simpl; lia).
  destruct (rows_balanced sample_source 3 items
              sample_source_unit_interval Hn)
    as (H1 & _ & _ & H4).
  split; [exact sample_source_unit_interval|].
  split; [exact Hn|]. split; [exact H1|exact H4].
Defined.

(** ** Marking cells *)

Lemma elem_of_newChecks x i l :
  x ∈ newChecks i l ↔ (x ≠ i ∧ x ∈ l) ∨ (x = i ∧ i ∉ l).
Proof.
  unfold newChecks. case_bool_decide as Hi.
  - rewrite list_elem_of_filter. naive_solver.
  - rewrite elem_of_app, list_elem_of_singleton.
    destruct (decide (x = i)); naive_solver.
Qed.

Lemma newChecks_NoDup i l : NoDup l → NoDup (newChecks i l).
Proof.
  intros Hnd. unfold newChecks. case_bool_decide as Hi.
  - by apply NoDup_filter.
  - apply NoDup_app. split_and!; [done| |apply NoDup_singleton].
    intros x Hx ->%list_elem_of_singleton. done.
Qed.

Lemma newChecks_twice i l :
  list_to_set (newChecks i (newChecks i l)) =@{gset nat} list_to_set l.
Proof.
  apply set_eq. intros x.
  rewrite !elem_of_list_to_set, !elem_of_newChecks.
  destruct (decide (x = i)) as [->|]; destruct (decide (i ∈ l)); naive_solver.
Qed.

Lemma toggleCell_writes c mine g cells i uid :
  myParticipantData c = Some mine →
  gameData c = Some g → layout g = Some cells →
  cells !! i ≠ Some None →
  user c = Some uid →
  toggleCell i c =
    Returned
      [SetParticipant (gameId c) uid
         {| d_name := None;
            d_checkedIndices :=
              Some (newChecks i (default [] (checkedIndices mine)));
            d_userId := None;
            d_lastActive := Some serverTimestamp |}
         true].
Proof.
  intros Hmine Hg Hcells Hi Hu. unfold toggleCell.
  rewrite Hmine, Hg, Hcells, Hu.
  destruct (cells !! i) as [[item|]|]; done.
Qed.

Lemma toggleCell_gap c g cells i :
  gameData c = Some g → layout g = Some cells → cells !! i = Some None →
  toggleCell i c = Returned [].
Proof.
  intros Hg Hcells Hi. unfold toggleCell.
  destruct (myParticipantData c); [|done]. by rewrite Hg, Hcells, Hi.
Qed.

(** The store after a click on an item cell by a client whose document
    is [p] in the store and [mine] in its own state. *)
Lemma commit_toggle s c mine p g cells i uid now :
  myParticipantData c = Some mine →
  gameData c = Some g → layout g = Some cells →
  cells !! i ≠ Some None →
  user c = Some uid →
  participants s !! (gameId c, uid) = Some p →
  commit now (toggleCell i c) s =
    {| games := games s;
       participants :=
         <[(gameId c, uid) :=
             {| name := name p;
                checkedIndices :=
                  Some (newChecks i (default [] (checkedIndices mine)));
                userId := userId p;
                lastActive := Some now |}]> (participants s) |}.
Proof.
  intros Hmine Hg Hcells Hi Hu Hp.
  rewrite (toggleCell_writes c mine g cells i uid) by done.
  unfold commit, apply_writes. cbn [foldl apply_write]. by rewrite Hp.
Qed.

Lemma owner_keyed_insert s g u p :
  owner_keyed s →
  userId p = Some u ∨ userId p = None →
  owner_keyed
    {| games := games s; participants := <[(g, u) := p]> (participants s) |}.
Proof.
  intros Hs Hp g' u' p'. cbn [participants].
  destruct (decide ((g, u) = (g', u'))) as [[= <- <-]|Hne].
  - rewrite lookup_insert_eq. by intros [= <-].
  - rewrite lookup_insert_ne by done. apply Hs.
Qed.

(** The writes of the program name no owner other than the key of the
    document they go to. *)
Lemma owner_keyed_apply_write now w s :
  owner_keyed s →
  (∀ g u d m, w = SetParticipant g u d m →
              d_userId d = Some u ∨ d_userId d = None) →
  owner_keyed (apply_write now w s).
Proof.
  intros Hs Hw. destruct w as [g d|g u d m|g delta]; cbn [apply_write].
  - done.
  - destruct (Hw g u d m eq_refl) as [Hd|Hd]; destruct m.
    + apply owner_keyed_insert; [done|]. cbn. rewrite Hd. by left.
    + apply owner_keyed_insert; [done|]. cbn. rewrite Hd. by left.
    + apply owner_keyed_insert; [done|]. cbn. rewrite Hd. cbn.
      destruct (participants s !! (g, u)) as [p|] eqn:Hp; [|by right].
      exact (Hs g u p Hp).
    + apply owner_keyed_insert; [done|]. cbn. rewrite Hd. by right.
  - destruct (games s !! g); [|done]. exact Hs.
Qed.

Lemma owner_keyed_commit_toggleCell now i c s :
  owner_keyed s → owner_keyed (commit now (toggleCell i c) s).
Proof.
  intros Hs. unfold toggleCell.
  destruct (myParticipantData c); [|done].
  destruct (gameData c) as [g|]; [|done].
  destruct (layout g) as [cells|]; [|done].
  destruct (user c) as [uid|] eqn:Hu.
  - destruct (cells !! i) as [[item|]|]; try done;
      (apply owner_keyed_apply_write; [done|]; intros ???? [= <- <- <- <-];
       by right).
  - by destruct (cells !! i) as [[item|]|].
Qed.

Lemma owner_keyed_commit_updateName now c s :
  owner_keyed s → owner_keyed (commit now (updateName c) s).
Proof.
  intros Hs. unfold updateName. case_decide; [done|].
  destruct (user c) as [uid|]; [|done].
  apply owner_keyed_apply_write; [done|]. intros ???? [= <- <- <- <-].
  by right.
Qed.

Lemma owner_keyed_ensureJoined rnd k now c s :
  owner_keyed s → owner_keyed (apply_writes now (ensureJoined rnd k s c) s).
Proof.
  intros Hs. unfold ensureJoined.
  destruct (user c) as [uid|]; [|done].
  destruct (gameData c); [|done]. case_decide; [done|].
  destruct (participants s !! (gameId c, uid)); [done|].
  destruct (generateFunnyName rnd k) as [initialName k'].
  unfold apply_writes. cbn [foldl].
  apply owner_keyed_apply_write; [|done].
  apply owner_keyed_apply_write; [done|]. intros ???? [= <- <- <- <-].
  by left.
Qed.

(** ** What the listener records *)

Lemma elem_of_participants_of s g p :
  p ∈ participants_of s g ↔ ∃ u, participants s !! (g, u) = Some p.
Proof.
  unfold participants_of. rewrite list_elem_of_fmap. split.
  - intros ([[g' u] p'] & -> & [Hg Hin]%list_elem_of_filter).
    simpl in Hg. subst g'. exists u. by apply elem_of_map_to_list.
  - intros [u Hu]. exists ((g, u), p). split; [done|].
    apply list_elem_of_filter. split; [done|]. by apply elem_of_map_to_list.
Qed.

Lemma own_document_found uid p docs mine :
  (∀ d, d ∈ docs → userId d = Some uid → d = p) →
  p ∈ docs → userId p = Some uid →
  foldl (λ mine data, if decide (userId data = Some uid) then Some data else mine)
    mine docs = Some p.
Proof.
  induction docs as [|d docs IH] using rev_ind; intros Hall Hin Hp.
  - by apply elem_of_nil in Hin.
  - rewrite foldl_app. cbn [foldl]. case_decide as Hd.
    + f_equal. apply Hall; [|done]. apply elem_of_app. right.
      by apply list_elem_of_singleton.
    + apply IH; [| |done].
      * intros d' Hd'. apply Hall. apply elem_of_app. by left.
      * apply elem_of_app in Hin as [Hin|Hin%list_elem_of_singleton];
          [done|congruence].
Qed.

Lemma observe_own s c uid p :
  owner_keyed s →
  user c = Some uid →
  participants s !! (gameId c, uid) = Some p →
  userId p = Some uid →
  myParticipantData (observe s c) = Some p
  ∧ user (observe s c) = user c
  ∧ gameId (observe s c) = gameId c
  ∧ gameData (observe s c) = gameData c.
Proof.
  intros Hs Hu Hp Hid. unfold observe. rewrite Hu.
  split; [|done]. cbn [onParticipantsSnapshot myParticipantData].
  apply own_document_found; [|by apply elem_of_participants_of; exists uid|done].
  intros d [u Hd]%elem_of_participants_of Hdu.
  destruct (Hs _ _ _ Hd) as [Hown|Hnone]; [|congruence].
  assert (u = uid) as -> by congruence. congruence.
Qed.

(** ** Toggling twice *)

(** C3. A client whose own document is in step with the store clicks
    the same item cell twice, at server times [t1] and [t2]: the marked
    set of its document is then what it was before the first click,
    while [lastActive] was set to [t1] by the first click and to [t2]
    by the second; in between the cell had changed state. *)
Theorem toggle_twice_restores s c uid g cells item mine i t1 t2 :
  owner_keyed s →
  user c = Some uid →
  gameData c = Some g → layout g = Some cells →
  cells !! i = Some (Some item) →
  participants s !! (gameId c, uid) = Some mine →
  userId mine = Some uid →
  myParticipantData c = Some mine →
  let w1 := click i t1 (s, c) in
  let w2 := click i t2 w1 in
  ∃ p1 p2,
    participants w1.1 !! (gameId c, uid) = Some p1
    ∧ participants w2.1 !! (gameId c, uid) = Some p2
    ∧ marked p2 = marked mine
    ∧ (i ∈ marked p1 ↔ i ∉ marked mine)
    ∧ lastActive p1 = Some t1
    ∧ lastActive p2 = Some t2.
Proof.
  intros Hs Hu Hg Hcells Hi Hp Hid Hmine w1 w2.
  assert (Hitem : cells !! i ≠ Some None) by (by rewrite Hi).
  set (p1 := {| name := name mine;
                checkedIndices :=
                  Some (newChecks i (default [] (checkedIndices mine)));
                userId := userId mine;
                lastActive := Some t1 |}).
  set (s1 := {| games := games s;
                participants := <[(gameId c, uid) := p1]> (participants s) |}).
  assert (Hs1 : w1.1 = s1).
  { unfold w1, click. cbn [fst snd].
    by rewrite (commit_toggle s c mine mine g cells i uid t1). }
  assert (Hp1 : participants s1 !! (gameId c, uid) = Some p1)
    by apply lookup_insert_eq.
  assert (Hk1 : owner_keyed s1) by (apply owner_keyed_insert; [done|by left]).
  destruct (observe_own s1 c uid p1 Hk1 Hu Hp1 Hid) as (Hm1 & Hu1 & Hgid1 & Hg1).
  assert (Hc1 : w1.2 = observe s1 c).
  { unfold w1, click. cbn [fst snd].
    by rewrite (commit_toggle s c mine mine g cells i uid t1). }
  set (p2 := {| name := name p1;
                checkedIndices :=
                  Some (newChecks i (default [] (checkedIndices p1)));
                userId := userId p1;
                lastActive := Some t2 |}).
  assert (Hs2 : participants w2.1 !! (gameId c, uid) = Some p2).
  { unfold w2, click. rewrite Hs1, Hc1.
    rewrite (commit_toggle s1 (observe s1 c) p1 p1 g cells i uid t2);
      rewrite ?Hgid1; try done; try congruence.
    apply lookup_insert_eq. }
  exists p1, p2. rewrite Hs1. split_and!; [done..| | |done|done].
  - unfold marked. cbn [p2 p1 checkedIndices default from_option]. unfold id.
    apply newChecks_twice.
  - unfold marked. cbn [p1 checkedIndices default from_option].
    rewrite !elem_of_list_to_set. unfold id.
    rewrite elem_of_newChecks. naive_solver.
Qed.

(** ** Clicks that do nothing *)

(** C6. A click on a gap slot returns without raising and without
    writing: the store, and with it the whole document of the
    participant ([checkedIndices] and [lastActive] included), is the
    same afterwards. *)
Theorem toggle_gap_ignored c g cells i :
  gameData c = Some g → layout g = Some cells →
  cells !! i = Some None →
  toggleCell i c = Returned []
  ∧ ∀ now s, commit now (toggleCell i c) s = s
             ∧ (click i now (s, c)).1 = s.
Proof.
  intros Hg Hcells Hi.
  pose proof (toggleCell_gap c g cells i Hg Hcells Hi) as Hret.
  split; [done|]. intros now s. unfold click. cbn [fst snd].
  by rewrite Hret.
Qed.

(** C10. Before the client has seen its own participant document, a
    click returns without raising and issues no write, whatever the
    index and whatever else the client holds: no document is created
    and no [lastActive] is refreshed. *)
Theorem toggle_before_join_ignored c i :
  myParticipantData c = None →
  toggleCell i c = Returned []
  ∧ ∀ now s, commit now (toggleCell i c) s = s.
Proof.
  intros Hmine. unfold toggleCell. rewrite Hmine. done.
Qed.

(** ** Joining *)

Lemma ensureJoined_absent rnd k s c uid g :
  user c = Some uid → gameData c = Some g → gameId c ≠ "" →
  participants s !! (gameId c, uid) = None →
  ensureJoined rnd k s c =
    [SetParticipant (gameId c) uid
       {| d_name := Some (generateFunnyName rnd k).1;
          d_checkedIndices := Some [];
          d_userId := Some uid;
          d_lastActive := Some serverTimestamp |}
       false;
     IncrementParticipantCount (gameId c) 1].
Proof.
  intros Hu Hg Hgid Hp. unfold ensureJoined. rewrite Hu, Hg, Hp.
  rewrite decide_False by done. by destruct (generateFunnyName rnd k).
Qed.

Lemma ensureJoined_present rnd k s c uid :
  user c = Some uid →
  is_Some (participants s !! (gameId c, uid)) →
  ensureJoined rnd k s c = [].
Proof.
  intros Hu [p Hp]. unfold ensureJoined. rewrite Hu, Hp.
  destruct (gameData c); [|done]. by case_decide.
Qed.

(** C2. When no participant document exists for the user in the game,
    the join issues two writes, the creation of the document with an
    empty [checkedIndices] and an increment of [participantCount] by 1;
    the store then holds that one new document, all other participant
    documents as before, and a count that is one higher. Run again on
    the resulting store, for the same user and game, the join issues no
    write and the store stays as it is. *)
Theorem join_once rnd k now s c uid g gm :
  user c = Some uid → gameData c = Some g → gameId c ≠ "" →
  games s !! gameId c = Some gm →
  participants s !! (gameId c, uid) = None →
  let ws := ensureJoined rnd k s c in
  let s1 := apply_writes now ws s in
  let created :=
    {| name := Some (generateFunnyName rnd k).1;
       checkedIndices := Some [];
       userId := Some uid;
       lastActive := Some now |} in
  ws = [SetParticipant (gameId c) uid
          {| d_name := Some (generateFunnyName rnd k).1;
             d_checkedIndices := Some [];
             d_userId := Some uid;
             d_lastActive := Some serverTimestamp |}
          false;
        IncrementParticipantCount (gameId c) 1]
  ∧ participants s1 = <[(gameId c, uid) := created]> (participants s)
  ∧ size (participants s1) = S (size (participants s))
  ∧ marked created = ∅
  ∧ (participantCount <$> games s1 !! gameId c)
    = Some (Some (default 0 (participantCount gm) + 1)%Z)
  ∧ ∀ rnd' k' now' c',
      user c' = Some uid → gameId c' = gameId c →
      ensureJoined rnd' k' s1 c' = []
      ∧ apply_writes now' (ensureJoined rnd' k' s1 c') s1 = s1.
Proof.
  intros Hu Hg Hgid Hgm Hp ws s1 created.
  assert (Hws := ensureJoined_absent rnd k s c uid g Hu Hg Hgid Hp).
  fold ws in Hws.
  assert (Hs1 : s1 =
    {| games :=
         <[gameId c :=
             {| layout := layout gm; createdAt := createdAt gm;
                creatorId := creatorId gm;
                participantCount :=
                  Some (default 0 (participantCount gm) + 1)%Z |}]> (games s);
       participants := <[(gameId c, uid) := created]> (participants s) |}).
  { unfold s1. rewrite Hws. unfold apply_writes.
    cbn [foldl apply_write games participants]. by rewrite Hgm. }
  split_and!; [done|by rewrite Hs1|..].
  - rewrite Hs1. cbn [participants]. by apply map_size_insert_None.
  - done.
  - rewrite Hs1. cbn [games]. by rewrite lookup_insert_eq.
  - intros rnd' k' now' c' Hu' Hgid'.
    assert (Hnil : ensureJoined rnd' k' s1 c' = []).
    { apply (ensureJoined_present _ _ _ _ uid); [done|].
      rewrite Hgid', Hs1. cbn [participants]. rewrite lookup_insert_eq. eauto. }
    by rewrite Hnil.
Qed.

(** ** The invariant of [checkedIndices] *)

Lemma commit_updateName s c p uid now :
  trim (newName c) ≠ "" →
  user c = Some uid →
  participants s !! (gameId c, uid) = Some p →
  commit now (updateName c) s =
    {| games := games s;
       participants :=
         <[(gameId c, uid) :=
             {| name := Some (newName c);
                checkedIndices := checkedIndices p;
                userId := userId p;
                lastActive := Some now |}]> (participants s) |}.
Proof.
  intros Hname Hu Hp. unfold updateName.
  rewrite decide_False, Hu by done.
  unfold commit, apply_writes. cbn [foldl apply_write]. by rewrite Hp.
Qed.

Lemma checks_ok_newChecks cells p p' i :
  length cells = TOTAL_CELLS →
  i < length cells → cells !! i ≠ Some None →
  checkedIndices p' = Some (newChecks i (default [] (checkedIndices p))) →
  checks_ok cells p → checks_ok cells p'.
Proof.
  intros Hlen Hi Hitem Hp' [Hidx Hnd]. unfold checks_ok. rewrite Hp'.
  cbn [default from_option]. unfold id. split.
  - intros x [[_ Hx]|[-> _]]%elem_of_newChecks; [by apply Hidx|].
    split; [lia|].
    destruct (lookup_lt_is_Some_2 cells i Hi) as [[item|] Hc]; [eauto|done].
  - by apply newChecks_NoDup.
Qed.

(** C7, as the code has it. The operations on a participant document
    keep the invariant of [checkedIndices] (every index is below 24 and
    addresses an item slot of the layout, no index occurs twice): the
    document created by the join satisfies it, and if the document of a
    client satisfies it (in the store and in the copy the client holds)
    then so does the document after a click on any slot of the layout,
    that is for every index from 0 to 23, and after a change of name.
    The handler does not check the range of its argument, so the
    statement stops at the end of the layout. *)
Theorem checkedIndices_invariant :
  (∀ rnd k now s c uid g cells,
     user c = Some uid → gameData c = Some g → gameId c ≠ "" →
     participants s !! (gameId c, uid) = None →
     ∃ p, participants (apply_writes now (ensureJoined rnd k s c) s)
            !! (gameId c, uid) = Some p
          ∧ checks_ok cells p)
  ∧ (∀ now s c uid g cells stored mine i,
       user c = Some uid → gameData c = Some g → layout g = Some cells →
       length cells = TOTAL_CELLS → i < length cells →
       participants s !! (gameId c, uid) = Some stored →
       myParticipantData c = Some mine →
       checks_ok cells stored → checks_ok cells mine →
       ∃ p, participants (commit now (toggleCell i c) s)
              !! (gameId c, uid) = Some p
            ∧ checks_ok cells p)
  ∧ (∀ now s c uid cells mine,
       user c = Some uid →
       participants s !! (gameId c, uid) = Some mine →
       checks_ok cells mine →
       ∃ p, participants (commit now (updateName c) s)
              !! (gameId c, uid) = Some p
            ∧ checks_ok cells p).
Proof.
  split_and!.
  - intros rnd k now s c uid g cells Hu Hg Hgid Hp.
    rewrite (ensureJoined_absent rnd k s c uid g) by done.
    eexists. split.
    + unfold apply_writes. cbn [foldl apply_write].
      destruct (games _ !! gameId c); cbn [participants];
        apply lookup_insert_eq.
    + split; [|constructor]. cbn. intros i Hi. by apply elem_of_nil in Hi.
  - intros now s c uid g cells stored mine i
      Hu Hg Hcells Hlen Hi Hp Hmine Hstored Hok.
    destruct (decide (cells !! i = Some None)) as [Hgap|Hitem].
    + rewrite (toggleCell_gap c g cells i) by done. by exists stored.
    + rewrite (commit_toggle s c mine stored g cells i uid now) by done.
      eexists. split; [apply lookup_insert_eq|].
      by apply (checks_ok_newChecks cells mine _ i).
  - intros now s c uid cells mine Hu Hp Hok.
    destruct (decide (trim (newName c) = "")) as [Hblank|Hname].
    + unfold updateName. rewrite decide_True by done. by exists mine.
    + rewrite (commit_updateName s c mine uid now) by done.
      eexists. split; [apply lookup_insert_eq|]. exact Hok.
Qed.

(** ** The properties on the sample data *)

Lemma sample_store_owner_keyed : owner_keyed sample_store.
Proof.
  intros g u p Hp. cbn [sample_store participants] in Hp.
  apply lookup_singleton_Some in Hp as [[= <- <-] <-]. by left.
Qed.

Lemma sample_me_stored :
  participants sample_store !! ("g1", "u1") = Some sample_me.
Proof. apply lookup_singleton_eq. Qed.

Lemma sample_me_checks_ok : checks_ok sample_cells sample_me.
Proof.
  split.
  - intros i Hi. cbn in Hi. apply list_elem_of_singleton in Hi as ->.
    split; [unfold TOTAL_CELLS, COLS, ROWS; lia|].
    exists "j". vm_compute. reflexivity.
  - cbn. apply NoDup_singleton.
Qed.

Lemma toggle_twice_restores_witness :
  let w1 := click 0 2000 (sample_store, sample_client) in
  let w2 := click 0 3000 w1 in
  ∃ p1 p2,
    participants w1.1 !! ("g1", "u1") = Some p1
    ∧ participants w2.1 !! ("g1", "u1") = Some p2
    ∧ marked p2 = marked sample_me
    ∧ (0 ∈ marked p1 ↔ 0 ∉ marked sample_me)
    ∧ lastActive p1 = Some 2000%Z
    ∧ lastActive p2 = Some 3000%Z.
Proof.
  apply (toggle_twice_restores sample_store sample_client "u1" sample_game
           sample_cells "f" sample_me 0 2000 3000).
  - exact sample_store_owner_keyed.
  - reflexivity.
  - reflexivity.
  - reflexivity.
  - vm_compute. reflexivity.
  - exact sample_me_stored.
  - reflexivity.
  - reflexivity.
Defined.

Lemma toggle_gap_ignored_witness :
  sample_cells !! 2 = Some None
  ∧ toggleCell 2 sample_client = Returned []
  ∧ ∀ now s, commit now (toggleCell 2 sample_client) s = s
             ∧ (click 2 now (s, sample_client)).1 = s.
Proof.
  assert (Hgap : sample_cells !! 2 = Some None) by (vm_compute; reflexivity).
  split; [exact Hgap|].
  apply (toggle_gap_ignored sample_client sample_game sample_cells 2).
  - reflexivity.
  - reflexivity.
  - exact Hgap.
Defined.

Lemma toggle_before_join_ignored_witness :
  sample_cells !! 0 = Some (Some "f")
  ∧ toggleCell 0 sample_newcomer = Returned []
  ∧ ∀ now s, commit now (toggleCell 0 sample_newcomer) s = s.
Proof.
  split; [vm_compute; reflexivity|].
  apply (toggle_before_join_ignored sample_newcomer 0). reflexivity.
Defined.

Lemma join_once_witness :
  let s1 :=
    apply_writes 2000 (ensureJoined sample_source 0 sample_store sample_newcomer)
      sample_store in
  size (participants s1) = 2
  ∧ (participantCount <$> games s1 !! "g1") = Some (Some 2%Z)
  ∧ ensureJoined sample_source 4 s1 sample_newcomer = [].
Proof.
  intros s1.
  destruct (join_once sample_source 0 2000 sample_store sample_newcomer "u2"
              sample_game sample_game)
    as (_ & _ & Hsize & _ & Hcount & Hagain).
  - reflexivity.
  - reflexivity.
  - discriminate.
  - apply lookup_singleton_eq.
  - apply lookup_singleton_ne. discriminate.
  - split; [|split].
    + fold s1 in Hsize. rewrite Hsize.
      cbn [sample_store participants]. by rewrite map_size_singleton.
    + exact Hcount.
    + by destruct (Hagain sample_source 4 0%Z sample_newcomer eq_refl eq_refl).
Defined.

Lemma checkedIndices_invariant_witness :
  ∃ p, participants (commit 2000 (toggleCell 0 sample_client) sample_store)
         !! ("g1", "u1") = Some p
       ∧ checks_ok sample_cells p.
Proof.
  destruct checkedIndices_invariant as (_ & Htoggle & _).
  apply (Htoggle 2000%Z sample_store sample_client "u1" sample_game
           sample_cells sample_me sample_me 0).
  - reflexivity.
  - reflexivity.
  - reflexivity.
  - vm_compute. reflexivity.
  - vm_compute. lia.
  - exact sample_me_stored.
  - reflexivity.
  - exact sample_me_checks_ok.
  - exact sample_me_checks_ok.
Defined.

(** C7 as stated, for any index a caller can pass, fails past the end
    of the layout: index 24 is no slot of the board, the handler
    records it all the same, and the document no longer satisfies the
    invariant. *)
Lemma click_past_the_end_breaks_invariant :
  ¬ click_keeps_checks_for_every_index.
Proof.
  intros H.
  destruct (H 2000%Z sample_store sample_client "u1" sample_game sample_cells
              sample_me sample_me 24) as (p & Hp & Hidx & _).
  - reflexivity.
  - reflexivity.
  - reflexivity.
  - vm_compute. reflexivity.
  - exact sample_me_stored.
  - reflexivity.
  - exact sample_me_checks_ok.
  - exact sample_me_checks_ok.
  - vm_compute in Hp. injection Hp as <-.
    destruct (Hidx 24) as [Hlt _].
    + cbn. apply list_elem_of_further, list_elem_of_here.
    + vm_compute in Hlt. lia.
Qed.

(** The handler itself does not check the range of the index: the cells
    it is attached to are the item cells of the layout. Called with an
    index past the end it would record that index. *)
Example toggleCell_past_the_end :
  toggleCell 24 sample_client =
    Returned
      [SetParticipant "g1" "u1"
         {| d_name := None;
            d_checkedIndices := Some [1; 24];
            d_userId := None;
            d_lastActive := Some serverTimestamp |}
         true].
Proof. vm_compute. reflexivity. Qed.

(** ** Sorting with a comparator *)

Lemma sort_insert_Permutation {A} (cmp : A → A → Z) x l :
  sort_insert cmp x l ≡ₚ x :: l.
Proof.
  induction l as [|y l IH]; [done|]. cbn [sort_insert].
  destruct (cmp x y <=? 0)%Z; [done|].
  rewrite IH. apply perm_swap.
Qed.

Lemma sort_Permutation {A} (cmp : A → A → Z) l : sort cmp l ≡ₚ l.
Proof.
  induction l as [|x l IH]; [done|].
  unfold sort in *. cbn [foldr]. by rewrite sort_insert_Permutation, IH.
Qed.

Lemma StronglySorted_positions {A} (R : relation A) l i j a b :
  StronglySorted R l →
  l !! i = Some a → l !! j = Some b → i < j → R a b.
Proof.
  intros Hl. revert i j.
  induction Hl as [|x l Hl IH Hx]; intros i j Ha Hb Hij; [done|].
  destruct j as [|j]; [lia|]. cbn in Hb.
  destruct i as [|i]; cbn in Ha.
  - injection Ha as ->. rewrite Forall_forall in Hx. apply Hx.
    by eapply list_elem_of_lookup_2.
  - apply (IH i j); [done..|lia].
Qed.

Section descending.

(** A comparator that subtracts a numeric key of its first argument
    from that of the second, as both comparators of the program do. *)
Context {A : Type} (key : A → Z) (cmp : A → A → Z).
Hypothesis cmp_key : ∀ x y, cmp x y = (key y - key x)%Z.

Lemma sort_insert_descending x l :
  StronglySorted (descending key) l → StronglySorted (descending key) (sort_insert cmp x l).
Proof.
  induction 1 as [|y l Hl IH Hy]; cbn [sort_insert].
  - repeat constructor.
  - destruct (cmp x y <=? 0)%Z eqn:Hc.
    + apply Z.leb_le in Hc. rewrite cmp_key in Hc.
      constructor; [by constructor|].
      constructor; [unfold descending; lia|].
      eapply Forall_impl; [exact Hy|]. unfold descending. intros z Hz. lia.
    + apply Z.leb_gt in Hc. rewrite cmp_key in Hc.
      constructor; [done|].
      rewrite sort_insert_Permutation.
      constructor; [unfold descending; lia|done].
Qed.

Lemma sort_descending l : StronglySorted (descending key) (sort cmp l).
Proof.
  induction l as [|x l IH]; [constructor|].
  unfold sort in *. cbn [foldr]. by apply sort_insert_descending.
Qed.

Lemma sort_insert_front x l :
  (∀ y, y ∈ l → (key y ≤ key x)%Z) → sort_insert cmp x l = x :: l.
Proof.
  intros Hl. destruct l as [|y l]; [done|]. cbn [sort_insert].
  assert (Hy : (key y ≤ key x)%Z) by (apply Hl; left).
  destruct (Z.leb_spec (cmp x y) 0) as [_|Hc]; [done|].
  rewrite cmp_key in Hc. lia.
Qed.

(** An element whose key is above all others comes out first, the rest
    is the sort of the others. *)
Lemma sort_greatest_first l1 x l2 :
  (∀ y, y ∈ l1 ++ l2 → (key y < key x)%Z) →
  sort cmp (l1 ++ x :: l2) = x :: sort cmp (l1 ++ l2).
Proof.
  induction l1 as [|a l1 IH]; intros Hlt.
  - cbn [app]. unfold sort. cbn [foldr]. apply sort_insert_front.
    intros y Hy. fold (sort cmp l2) in Hy.
    rewrite sort_Permutation in Hy. apply Z.lt_le_incl, Hlt. done.
  - cbn [app]. unfold sort in *. cbn [foldr].
    rewrite IH by (intros y Hy; apply Hlt; by right).
    cbn [sort_insert].
    assert (Ha : (key a < key x)%Z) by (apply Hlt; left).
    destruct (Z.leb_spec (cmp a x) 0) as [Hc|_]; [|done].
    rewrite cmp_key in Hc. lia.
Qed.

(** In a descending list an element with a larger key stands before
    one with a smaller key. *)
Lemma descending_positions l i j a b :
  StronglySorted (descending key) l →
  l !! i = Some a → l !! j = Some b →
  (key a < key b)%Z → j < i.
Proof.
  intros Hl Ha Hb Hlt.
  destruct (decide (j < i)) as [|Hge]; [done|]. exfalso.
  destruct (decide (i = j)) as [->|Hne]; [assert (a = b) by congruence; subst; lia|].
  assert (Hij : i < j) by lia.
  pose proof (StronglySorted_positions (descending key) l i j a b Hl Ha Hb Hij) as Hd.
  unfold descending in Hd. lia.
Qed.

End descending.

(** ** Presence ordering *)

Lemma byLastActiveDesc_key a b :
  byLastActiveDesc a b = (toMillisOr0 b - toMillisOr0 a)%Z.
Proof. reflexivity. Qed.

(** C4. The displayed ordering is a rearrangement of the participant
    documents in which keys descend, the key of a document being its
    [lastActive] in milliseconds, or 0 when it has none: 0 is the key of
    the epoch, below or equal to the key of every time stamp that is not
    before the epoch. So a document with a larger key stands before one
    with a smaller key (in particular a stamped document before an
    unstamped one), two documents stamped [t1 < t2] are shown as the
    later one first whatever their order of arrival, and a document
    whose key is above all others is the first of the ordering, the
    others following in their own ordering. The listener computes this
    ordering afresh from every snapshot it receives. *)
Theorem presence_order_recent_first parts :
  let out := presence_order parts in
  out ≡ₚ parts
  ∧ StronglySorted (descending toMillisOr0) out
  ∧ (∀ p, lastActive p = None →
       toMillisOr0 p = 0%Z
       ∧ ∀ q t, lastActive q = Some t → (0 ≤ t)%Z →
                (toMillisOr0 p ≤ toMillisOr0 q)%Z)
  ∧ (∀ i j a b, out !! i = Some a → out !! j = Some b →
       (toMillisOr0 a < toMillisOr0 b)%Z → j < i)
  ∧ (∀ i j p q t, out !! i = Some p → out !! j = Some q →
       lastActive p = None → lastActive q = Some t → (0 < t)%Z → j < i)
  ∧ (∀ a b t1 t2, lastActive a = Some t1 → lastActive b = Some t2 →
       (t1 < t2)%Z →
       presence_order [a; b] = [b; a] ∧ presence_order [b; a] = [b; a])
  ∧ (∀ l1 p l2, parts = l1 ++ p :: l2 →
       (∀ q, q ∈ l1 ++ l2 → (toMillisOr0 q < toMillisOr0 p)%Z) →
       out = p :: presence_order (l1 ++ l2))
  ∧ (∀ uid c, participantsView (onParticipantsSnapshot uid parts c) = out).
Proof.
  intros out.
  assert (Hsorted : StronglySorted (descending toMillisOr0) out)
    by apply (sort_descending toMillisOr0 _ byLastActiveDesc_key).
  assert (Hpos : ∀ i j a b, out !! i = Some a → out !! j = Some b →
                   (toMillisOr0 a < toMillisOr0 b)%Z → j < i).
  { intros i j a b. by apply descending_positions. }
  split_and!.
  - apply sort_Permutation.
  - done.
  - intros p Hp. unfold toMillisOr0 at 1. rewrite Hp. split; [done|].
    intros q t Hq Ht. unfold toMillisOr0. rewrite Hp, Hq. done.
  - done.
  - intros i j p q t Hi Hj Hp Hq Ht. apply (Hpos i j p q); [done..|].
    unfold toMillisOr0. rewrite Hp, Hq. done.
  - intros a b t1 t2 Ha Hb Hlt.
    assert (Hkey : (toMillisOr0 a < toMillisOr0 b)%Z)
      by (unfold toMillisOr0; rewrite Ha, Hb; done).
    unfold presence_order, sort. cbn [foldr sort_insert].
    rewrite !byLastActiveDesc_key.
    destruct (Z.leb_spec (toMillisOr0 b - toMillisOr0 a) 0);
      destruct (Z.leb_spec (toMillisOr0 a - toMillisOr0 b) 0);
      split; (done || lia).
  - intros l1 p l2 -> Hlt.
    by apply (sort_greatest_first toMillisOr0 _ byLastActiveDesc_key).
  - done.
Qed.

Lemma presence_order_recent_first_witness :
  presence_order [sample_me; sample_pending; sample_other]
  = [sample_other; sample_me; sample_pending].
Proof.
  destruct (presence_order_recent_first
              [sample_me; sample_pending; sample_other])
    as (_ & _ & _ & _ & _ & _ & Hfront & _).
  rewrite (Hfront [sample_me; sample_pending] sample_other [] eq_refl).
  - reflexivity.
  - intros q Hq. cbn [app] in Hq.
    apply elem_of_cons in Hq as [->|Hq]; [reflexivity|].
    apply list_elem_of_singleton in Hq as ->. reflexivity.
Defined.

(** ** Recent boards *)

Lemma filter_truthy_non_gaps cells :
  (∀ item, Some item ∈ cells → item ≠ "") →
  filter_truthy cells = non_gaps cells.
Proof.
  unfold filter_truthy, non_gaps.
  induction cells as [|[item|] cells IH]; intros Hne; [done|..].
  - cbn [omap list_omap truthy id].
    rewrite decide_False by (apply Hne; left).
    rewrite IH; [done|]. intros item' H. apply Hne. by right.
  - cbn [omap list_omap truthy id].
    apply IH. intros item' H. apply Hne. by right.
Qed.

Lemma trim_empty : trim "" = "".
Proof. reflexivity. Qed.

(** The layouts the generator makes from validated input have more
    than three items, none of them empty. *)
Lemma generated_layout_previewable rnd k items :
  10 ≤ length items →
  (∀ item, item ∈ items → trim item ≠ "") →
  let cells := (generate_layout rnd k items).1 in
  (∀ item, Some item ∈ cells → item ≠ "")
  ∧ 3 < length (non_gaps cells).
Proof.
  intros Hn Hitems cells. split.
  - intros item Hin%generate_layout_elem ->. by apply (Hitems "").
  - unfold cells. rewrite generate_layout_non_gaps. lia.
Qed.

Lemma recentGames_eq s :
  recentGames s =
    take 6 (sort (λ a b, default 0 (createdAt b.2) - default 0 (createdAt a.2))%Z
              (filter (λ kv, is_Some (createdAt kv.2)) (map_to_list (games s)))).
Proof. reflexivity. Qed.

(** C8. The home view asks for the game collection ordered by
    [createdAt], newest first, cut at 6: the entries it receives are the
    6 newest games (all of them when there are fewer). For each entry
    the card shows the identifier, the participant count (0 when the
    document has none) and the preview. The preview of [src/App.jsx] is
    the first three items of the layout joined by ", ", followed by
    "..." exactly when the layout has more than three items; the inline
    preview of the second copy of the file agrees with it on every
    layout with more than three items, as every generated layout is. *)
Theorem recent_boards_feed :
  recentGamesQuery =
    {| q_collection := "games"; q_orderBy := "createdAt";
       q_direction := desc; q_limit := 6 |}
  ∧ (∀ s,
       let dated :=
         filter (λ kv, is_Some (createdAt kv.2)) (map_to_list (games s)) in
       ∃ older,
         recentGames s ++ older ≡ₚ dated
         ∧ StronglySorted (descending (λ kv, default 0%Z (createdAt kv.2)))
             (recentGames s ++ older)
         ∧ length (recentGames s) = length dated `min` 6)
  ∧ (∀ s preview,
       recent_cards preview s =
         (λ e, {| card_id := e.1;
                  card_participantCount := default 0%Z (participantCount e.2);
                  card_preview := preview e.2 |}) <$> recentGames s)
  ∧ (∀ g cells,
       layout g = Some cells →
       (∀ item, Some item ∈ cells → item ≠ "") →
       previewText g =
         join ", " (take 3 (non_gaps cells))
         +:+ (if 3 <? length (non_gaps cells) then "..." else ""))
  ∧ (∀ g cells,
       layout g = Some cells →
       (∀ item, Some item ∈ cells → item ≠ "") →
       3 < length (non_gaps cells) →
       previewText_inline g = previewText g)
  ∧ (∀ rnd k items,
       10 ≤ length items →
       (∀ item, item ∈ items → trim item ≠ "") →
       let cells := (generate_layout rnd k items).1 in
       (∀ item, Some item ∈ cells → item ≠ "")
       ∧ 3 < length (non_gaps cells)).
Proof.
  split_and!.
  - reflexivity.
  - intros s dated.
    set (cmp := λ a b : string * game,
           (default 0 (createdAt b.2) - default 0 (createdAt a.2))%Z).
    exists (drop 6 (sort cmp dated)).
    rewrite recentGames_eq. fold dated. fold cmp.
    rewrite take_drop. split_and!.
    + apply sort_Permutation.
    + by apply (sort_descending (λ kv, default 0%Z (createdAt kv.2)) cmp).
    + rewrite length_take, sort_Permutation. lia.
  - done.
  - intros g cells Hcells Hne. unfold previewText.
    by rewrite Hcells, filter_truthy_non_gaps.
  - intros g cells Hcells Hne Hmany. unfold previewText_inline, previewText.
    rewrite Hcells, filter_truthy_non_gaps by done.
    apply Nat.ltb_lt in Hmany. by rewrite Hmany.
  - apply generated_layout_previewable.
Qed.

Lemma sample_items_nonblank item : item ∈ sample_items → trim item ≠ "".
Proof.
  unfold sample_items. intros Hin.
  repeat (apply elem_of_cons in Hin as [->|Hin]; [vm_compute; discriminate|]).
  by apply elem_of_nil in Hin.
Qed.

Lemma recent_boards_feed_witness :
  previewText sample_game = "f, j, c..."
  ∧ previewText_inline sample_game = "f, j, c...".
Proof.
  destruct recent_boards_feed as (_ & _ & _ & Hpreview & Hinline & Hgen).
  destruct (Hgen sample_source 0 sample_items) as [Hne Hmany].
  - vm_compute. lia.
  - exact sample_items_nonblank.
  - rewrite (Hinline sample_game sample_cells eq_refl Hne Hmany).
    rewrite (Hpreview sample_game sample_cells eq_refl Hne).
    split; vm_compute; reflexivity.
Defined.

(** On a layout with three items or fewer, which no validated input
    produces, the two previews differ: the inline one still appends the
    marker. *)
Example previews_on_short_layout :
  let g := {| layout := Some [Some "x"; None; Some "y"];
              createdAt := Some 1%Z; creatorId := Some "u0";
              participantCount := None |} in
  previewText g = "x, y" ∧ previewText_inline g = "x, y...".
Proof. split; reflexivity. Qed.

(** ** Blank input *)

Lemma trimStart_empty s : trimStart s = "" ↔ all_whitespace s = true.
Proof.
  induction s as [|c s IH]; [done|]. cbn [trimStart all_whitespace].
  destruct (is_whitespace c); [done|]. split; discriminate.
Qed.

Lemma all_whitespace_trimStart s :
  all_whitespace (trimStart s) = all_whitespace s.
Proof.
  induction s as [|c s IH]; [done|]. cbn [trimStart].
  destruct (is_whitespace c) eqn:Hc; [|done].
  cbn [all_whitespace]. by rewrite Hc.
Qed.

Lemma all_whitespace_rev_app s acc :
  all_whitespace (String.rev_app s acc)
  = all_whitespace s && all_whitespace acc.
Proof.
  revert acc. induction s as [|c s IH]; intros acc; [done|].
  cbn [String.rev_app all_whitespace]. rewrite IH. cbn [all_whitespace].
  destruct (is_whitespace c), (all_whitespace s), (all_whitespace acc); done.
Qed.

Lemma all_whitespace_rev s : all_whitespace (String.rev s) = all_whitespace s.
Proof.
  unfold String.rev. rewrite all_whitespace_rev_app. cbn [all_whitespace].
  by rewrite andb_true_r.
Qed.

Lemma rev_app_empty s acc : String.rev_app s acc = "" ↔ s = "" ∧ acc = "".
Proof.
  revert acc. induction s as [|c s IH]; intros acc; cbn [String.rev_app].
  - naive_solver.
  - rewrite IH. naive_solver.
Qed.

Lemma trim_blank s : trim s = "" ↔ all_whitespace s = true.
Proof.
  unfold trim, trimEnd, String.rev at 1.
  rewrite rev_app_empty, trimStart_empty, all_whitespace_rev,
    all_whitespace_trimStart.
  naive_solver.
Qed.

Lemma split_lines_nonempty s : split_lines s ≠ [].
Proof.
  destruct s as [|c s]; [done|]. cbn [split_lines].
  case_decide; [done|]. by destruct (split_lines s).
Qed.

Lemma split_lines_blank s :
  Forall (λ line, all_whitespace line = true) (split_lines s)
  ↔ all_whitespace s = true.
Proof.
  induction s as [|c s IH].
  - cbn. split; [done|]. by repeat constructor.
  - cbn [split_lines all_whitespace]. case_decide as Hc.
    + subst c. rewrite Forall_cons, IH. cbn. naive_solver.
    + pose proof (split_lines_nonempty s) as Hne.
      destruct (split_lines s) as [|line lines]; [done|].
      rewrite Forall_cons in IH. rewrite Forall_cons. cbn [all_whitespace].
      rewrite !andb_true_iff, <- IH. naive_solver.
Qed.

Lemma filter_nil_Forall {A} (P : A → Prop) `{!∀ x, Decision (P x)} l :
  filter P l = [] ↔ Forall (λ x, ¬ P x) l.
Proof.
  induction l as [|x l IH]; [by rewrite filter_nil|].
  rewrite filter_cons, Forall_cons. case_decide; [|naive_solver].
  split; [done|]. by intros [? _].
Qed.

(** The whole input is blank exactly when it has no item. *)
Lemma input_items_nil s : input_items s = [] ↔ trim s = "".
Proof.
  unfold input_items. rewrite filter_nil_Forall, trim_blank.
  rewrite <- split_lines_blank. apply Forall_proper; [|done].
  intros line. rewrite <- trim_blank.
  destruct (decide (trim line = "")); naive_solver.
Qed.

(** ** Random numbers consumed by the generator *)

Lemma shuffle_counter {A} rnd k (a : list A) :
  (shuffle rnd k a).2 = k + (length a - 1).
Proof. apply shuffle_from_counter. Qed.

Lemma fill_and_shuffle_rows_counter rnd k rows cells :
  Forall (λ row, length row ≤ COLS) rows →
  (fill_and_shuffle_rows rnd k rows cells).2 = k + 5 * length rows.
Proof.
  intros Hrows. revert k cells.
  induction Hrows as [|row rows Hrow _ IH]; intros k cells; [cbn; lia|].
  cbn [fill_and_shuffle_rows].
  pose proof (shuffle_counter rnd k (fill_gaps row)) as Hk.
  destruct (shuffle rnd k (fill_gaps row)) as [sh k']. cbn [snd] in Hk.
  rewrite IH, Hk, fill_gaps_length by done. unfold COLS. cbn [length]. lia.
Qed.

(** With a list of valid length the generator draws a random number
    for every step of its five shuffles. *)
Lemma generate_layout_counter rnd k items :
  length items ≤ 24 →
  (generate_layout rnd k items).2 = k + (length items - 1) + 20.
Proof.
  intros Hn. unfold generate_layout.
  pose proof (distributed_rows_length rnd k items) as Hlen.
  assert (Hrows : Forall (λ row, length row ≤ COLS)
                    (distributed_rows rnd k items).1).
  { apply Forall_lookup. intros r row Hrow.
    apply distributed_row_length in Hrow as [Hr ->]. unfold COLS.
    apply Nat.lt_succ_r, Nat.Div0.div_lt_upper_bound. lia. }
  assert (Hk : (distributed_rows rnd k items).2 = k + (length items - 1)).
  { unfold distributed_rows. pose proof (shuffle_counter rnd k items) as Hk.
    by destruct (shuffle rnd k items). }
  destruct (distributed_rows rnd k items) as [rows k1]. cbn [fst snd] in *.
  rewrite fill_and_shuffle_rows_counter by done. lia.
Qed.

(** ** Validation *)

(** A list of valid length passes both guards: the generator runs and
    the game document is written, once. *)
Lemma handleCreateGame_valid toString36 rnd k stored c uid :
  10 ≤ length (input_items (inputList c)) ≤ 20 →
  user c = Some uid →
  let r := handleCreateGame toString36 rnd k stored c in
  let cells := (generate_layout rnd k (input_items (inputList c))).1 in
  r.2 = k + length (input_items (inputList c)) + 20
  ∧ ∃ newGameId,
      store_writes r.1 =
        [SetGame newGameId
           {| d_layout := cells; d_createdAt := serverTimestamp;
              d_creatorId := uid; d_participantCount := 0 |}].
Proof.
  intros Hn Hu r cells. unfold r, handleCreateGame.
  rewrite decide_False.
  2:{ rewrite <- input_items_nil. intros Hnil. rewrite Hnil in Hn. cbn in Hn. lia. }
  replace (length _ <? 10) with false by (symmetry; apply Nat.ltb_ge; lia).
  replace (20 <? length _) with false by (symmetry; apply Nat.ltb_ge; lia).
  cbn [orb].
  pose proof (generate_layout_counter rnd k (input_items (inputList c))
                ltac:(lia)) as Hk.
  unfold cells.
  destruct (generate_layout rnd k (input_items (inputList c))) as [cs k'].
  cbn [fst snd] in *. rewrite Hu. split; [lia|].
  eexists. by destruct stored.
Qed.

(** C9, as the code has it. A list with fewer than 10 or more than 20
    items stops the handler before the generator: no random number is
    consumed, nothing is written and no local state changes. With at
    least one item the user is shown the validation dialog, which is
    the only effect; with no item at all (a blank input) the handler
    returns silently and shows nothing. *)
Theorem invalid_input_rejected (toString36 : Q → string) rnd k stored c :
  let n := length (input_items (inputList c)) in
  n < 10 ∨ 20 < n →
  let r := handleCreateGame toString36 rnd k stored c in
  r.2 = k
  ∧ store_writes r.1 = []
  ∧ ((n = 0 ∧ r.1 = [])
     ∨ (0 < n ∧ r.1 = [alert "Please enter between 10 and 20 items."])).
Proof.
  intros n Hn r. unfold r, handleCreateGame.
  destruct (decide (trim (inputList c) = "")) as [Hblank|Hsome].
  - split_and!; [done..|]. left. split; [|done].
    unfold n. apply input_items_nil in Hblank. by rewrite Hblank.
  - fold n.
    replace ((n <? 10) || (20 <? n)) with true.
    2:{ symmetry. apply orb_true_iff.
        destruct Hn; [left; by apply Nat.ltb_lt|right; by apply Nat.ltb_lt]. }
    split_and!; [done..|]. right. split; [|done].
    destruct (input_items (inputList c)) as [|x l] eqn:Hitems.
    + by apply input_items_nil in Hitems.
    + unfold n. cbn. lia.
Qed.

Lemma invalid_input_rejected_witness :
  let r := handleCreateGame (λ _, "0.abcdefghijk") sample_source 0 true
             (typing "one
two") in
  r.2 = 0
  ∧ store_writes r.1 = []
  ∧ r.1 = [alert "Please enter between 10 and 20 items."].
Proof.
  intros r.
  destruct (invalid_input_rejected (λ _, "0.abcdefghijk") sample_source 0 true
              (typing "one
two"))
    as (Hk & Hw & [[Hn _]|[_ Hr]]).
  - left. vm_compute. lia.
  - vm_compute in Hn. discriminate Hn.
  - split; [exact Hk|]. split; [exact Hw|exact Hr].
Defined.

(** C9 as stated fails on a blank input: the count of items, 0, is
    outside the range, and the handler returns without showing
    anything. *)
Lemma blank_input_shows_nothing : ¬ rejection_always_shown.
Proof.
  intros H.
  destruct (H (λ _, "") sample_source 0 true (typing "   ")) as (_ & _ & [msg Hmsg]).
  - left. vm_compute. lia.
  - vm_compute in Hmsg. by apply elem_of_nil in Hmsg.
Qed.

(** ** The program on concrete inputs *)

(** Ten items: ten item slots, fourteen gaps, two or three items in
    every row. *)
Example ten_items :
  let cells :=
    (generate_layout sample_source 0
       ["a"; "b"; "c"; "d"; "e"; "f"; "g"; "h"; "i"; "j"]).1 in
  length (non_gaps cells) = 10
  ∧ length (gaps cells) = 14
  ∧ (λ r, length (non_gaps (layout_row r cells))) <$> [0; 1; 2; 3]
    = [3; 3; 2; 2].
Proof. vm_compute. done. Qed.

(** Twenty items: four gaps, one in every row. *)
Example twenty_items :
  let cells :=
    (generate_layout sample_source 5
       ["a"; "b"; "c"; "d"; "e"; "f"; "g"; "h"; "i"; "j";
        "k"; "l"; "m"; "n"; "o"; "p"; "q"; "r"; "s"; "t"]).1 in
  length (non_gaps cells) = 20
  ∧ (λ r, length (gaps (layout_row r cells))) <$> [0; 1; 2; 3]
    = [1; 1; 1; 1].
Proof. vm_compute. done. Qed.

(** Marking cell 3 and unmarking it. *)
Example mark_and_unmark :
  newChecks 3 [] = [3] ∧ newChecks 3 [3] = [].
Proof. split; reflexivity. Qed.

(** Unmarking and marking again moves the index to the end: the list
    is restored as a set, not as a sequence. *)
Example unmark_and_mark :
  newChecks 1 (newChecks 1 [1; 5]) = [5; 1].
Proof. reflexivity. Qed.

(** The more recently active participant is shown first. *)
Example later_first :
  presence_order [sample_me; sample_other] = [sample_other; sample_me].
Proof. reflexivity. Qed.

(** A name as the join makes it. *)
Example a_funny_name :
  (generateFunnyName sample_source 3).1 = "Lime-Happy-Muffin-85".
Proof. vm_compute. reflexivity. Qed.

(** * Part III: further properties of the program *)

(** ** The shuffle reaches every order *)

Lemma floor_scaled_exact j m :
  j < m → floor_scaled (Z.of_nat j # Pos.of_nat m) m = j.
Proof.
  intros Hj. unfold floor_scaled, Qmult, inject_Z, Qfloor. cbn [Qnum Qden].
  rewrite Pos.mul_1_r.
  assert (Hm : Z.pos (Pos.of_nat m) = Z.of_nat m) by lia.
  rewrite Hm, Z.div_mul by lia. apply Nat2Z.id.
Qed.

Lemma fraction_unit_interval j m :
  j < m →
  (0 <= Z.of_nat j # Pos.of_nat m)%Q ∧ (Z.of_nat j # Pos.of_nat m < 1)%Q.
Proof.
  intros Hj. unfold Qle, Qlt. cbn [Qnum Qden]. lia.
Qed.

Lemma shuffle_from_ext {A} rnd rnd' i k (a : list A) :
  (∀ m, k ≤ m → rnd m = rnd' m) →
  shuffle_from rnd i k a = shuffle_from rnd' i k a.
Proof.
  revert k a. induction i as [|i IH]; intros k a Hext; [done|].
  cbn [shuffle_from]. rewrite (Hext k) by lia.
  apply IH. intros m Hm. apply Hext. lia.
Qed.

Lemma swap_app_l {A} i j (pre suf : list A) :
  i < length pre → j < length pre →
  swap i j (pre ++ suf) = swap i j pre ++ suf.
Proof.
  intros Hi Hj. unfold swap. rewrite !lookup_app_l by done.
  destruct (pre !! j) as [x|]; [|done]. destruct (pre !! i) as [y|]; [|done].
  rewrite insert_app_l by done.
  by rewrite insert_app_l by (by rewrite length_insert).
Qed.

(** The loop started at [i] leaves the array untouched beyond
    position [i]. *)
Lemma shuffle_from_app {A} rnd i k (pre suf : list A) :
  unit_interval rnd → i < length pre →
  (shuffle_from rnd i k (pre ++ suf)).1 = (shuffle_from rnd i k pre).1 ++ suf.
Proof.
  intros Hrnd. revert k pre. induction i as [|i IH]; intros k pre Hi; [done|].
  cbn [shuffle_from].
  pose proof (shuffle_swaps_in_range rnd (S i) k (length pre) Hrnd Hi) as Hj.
  rewrite swap_app_l by done.
  apply IH. rewrite swap_length. lia.
Qed.

Lemma swap_lookup_l {A} i j (a : list A) x :
  i < length a → a !! j = Some x → swap i j a !! i = Some x.
Proof.
  intros Hi Hj. unfold swap. rewrite Hj.
  destruct (lookup_lt_is_Some_2 a i Hi) as [y Hy]. rewrite Hy.
  destruct (decide (i = j)) as [->|Hne].
  - assert (x = y) as -> by congruence.
    apply list_lookup_insert_eq. by rewrite length_insert.
  - rewrite list_lookup_insert_ne by done. by apply list_lookup_insert_eq.
Qed.

(** X1. The shuffle can produce every order: for each rearrangement of
    the array there are random numbers in [0, 1) for which the loop
    returns exactly that rearrangement. *)
Theorem shuffle_reaches_every_order {A} (a target : list A) k :
  a ≡ₚ target →
  ∃ rnd, unit_interval rnd ∧ (shuffle rnd k a).1 = target.
Proof.
  revert a k. induction target as [|x t IH] using rev_ind; intros a k Hperm.
  - apply Permutation_nil_r in Hperm as ->.
    exists (λ _, 0%Q). split; [|done]. intros m. split; [done|reflexivity].
  - assert (Hlen : length a = S (length t)).
    { rewrite Hperm, length_app. cbn. lia. }
    assert (Hx : x ∈ a).
    { rewrite Hperm. apply elem_of_app. right. by apply list_elem_of_singleton. }
    apply list_elem_of_lookup in Hx as [j Hj].
    pose proof (lookup_lt_Some _ _ _ Hj) as Hjlt.
    set (i := length t) in *.
    set (a' := swap i j a).
    assert (Hi' : a' !! i = Some x) by (apply swap_lookup_l; [lia|done]).
    assert (Hlen' : length a' = S i) by (unfold a'; by rewrite swap_length).
    assert (Ha' : a' = take i a' ++ [x]).
    { rewrite <- (take_S_r _ _ _ Hi'). symmetry. apply take_ge. lia. }
    assert (Hpre : take i a' ≡ₚ t).
    { apply (Permutation_app_inv_r [x]).
      rewrite <- Ha', <- Hperm. apply swap_Permutation. }
    assert (Hprelen : length (take i a') = i) by (rewrite length_take; lia).
    destruct (IH (take i a') (S k) Hpre) as (rnd' & Hunit' & Heq).
    set (rnd := λ m : nat,
           if decide (m = k) then (Z.of_nat j # Pos.of_nat (i + 1))%Q
           else rnd' m).
    assert (Hunit : unit_interval rnd).
    { intros m. unfold rnd. case_decide; [|apply Hunit'].
      apply fraction_unit_interval. lia. }
    exists rnd. split; [done|].
    unfold shuffle. rewrite Hlen. replace (S i - 1) with i by lia.
    destruct i as [|i0] eqn:Hi0.
    + cbn [shuffle_from fst].
      destruct a as [|y [|z a]]; cbn in Hlen; try lia.
      apply Permutation_length in Hperm as Hl. rewrite length_app in Hl.
      destruct t; [|cbn in Hi0; lia]. cbn.
      destruct j; [|cbn in Hjlt; lia]. cbn in Hj. congruence.
    + cbn [shuffle_from].
      assert (Hfl : floor_scaled (rnd k) (S i0 + 1) = j).
      { unfold rnd. rewrite decide_True by done.
        apply floor_scaled_exact. lia. }
      rewrite Hfl. fold a'. rewrite Ha'.
      rewrite shuffle_from_app by (done || lia).
      rewrite (shuffle_from_ext rnd rnd')
        by (intros m Hm; unfold rnd; rewrite decide_False by lia; done).
      unfold shuffle in Heq. rewrite Hprelen in Heq.
      replace (S i0 - 1) with i0 in Heq by lia. by rewrite Heq.
Qed.

Lemma shuffle_reaches_every_order_witness :
  ∃ rnd, unit_interval rnd
         ∧ (shuffle rnd 0 ["a"; "b"; "c"]).1 = ["c"; "a"; "b"].
Proof.
  apply (shuffle_reaches_every_order ["a"; "b"; "c"] ["c"; "a"; "b"] 0).
  apply (bool_decide_unpack (["a"; "b"; "c"] ≡ₚ ["c"; "a"; "b"])).
  vm_compute. exact I.
Defined.

(** ** Display names *)

Lemma pick_from_list r words :
  (0 <= r)%Q → (r < 1)%Q → 0 < length words → pick r words ∈ words.
Proof.
  intros H0 H1 Hlen. unfold pick.
  pose proof (floor_scaled_lt r (length words) H0 H1 Hlen) as Hlt.
  destruct (lookup_lt_is_Some_2 words _ Hlt) as [w Hw]. rewrite Hw.
  by eapply list_elem_of_lookup_2.
Qed.

(** X2. With random numbers in [0, 1) the name given at the join is a
    colour, an adjective and a noun of the three word lists and a
    number from 1 to 99, joined by dashes; the word "undefined" never
    shows up, and four random numbers are consumed. *)
Theorem funny_name_from_lists rnd k :
  unit_interval rnd →
  ∃ col adj noun num,
    col ∈ COLORS ∧ adj ∈ ADJECTIVES ∧ noun ∈ NOUNS
    ∧ 1 ≤ num ≤ 99
    ∧ generateFunnyName rnd k =
        (col +:+ "-" +:+ adj +:+ "-" +:+ noun +:+ "-" +:+ pretty num, k + 4).
Proof.
  intros Hrnd.
  destruct (Hrnd k) as [Ha0 Ha1]. destruct (Hrnd (k + 1)) as [Hb0 Hb1].
  destruct (Hrnd (k + 2)) as [Hc0 Hc1]. destruct (Hrnd (k + 3)) as [Hd0 Hd1].
  exists (pick (rnd k) COLORS), (pick (rnd (k + 1)) ADJECTIVES),
    (pick (rnd (k + 2)) NOUNS), (floor_scaled (rnd (k + 3)) 99 + 1).
  split_and!; [apply pick_from_list; (done || cbn; lia)..| | |done].
  - lia.
  - pose proof (floor_scaled_lt (rnd (k + 3)) 99 Hd0 Hd1). lia.
Qed.

Lemma funny_name_from_lists_witness :
  ∃ col adj noun num,
    col ∈ COLORS ∧ adj ∈ ADJECTIVES ∧ noun ∈ NOUNS
    ∧ 1 ≤ num ≤ 99
    ∧ generateFunnyName sample_source 3 =
        (col +:+ "-" +:+ adj +:+ "-" +:+ noun +:+ "-" +:+ pretty num, 3 + 4).
Proof.
  exact (funny_name_from_lists sample_source 3 sample_source_unit_interval).
Defined.

(** ** Rows of the board *)

Lemma layout_row_items rnd k items r :
  length items ≤ 24 → r < 4 →
  let row := layout_row r (generate_layout rnd k items).1 in
  length row = COLS
  ∧ length (non_gaps row) = (length items + 3 - r) / 4.
Proof.
  intros Hn Hr row.
  assert (Hlt : r < length (distributed_rows rnd k items).1)
    by (by rewrite distributed_rows_length).
  destruct (lookup_lt_is_Some_2 _ _ Hlt) as [bucket Hbucket].
  pose proof (generate_layout_row rnd k items r bucket Hn Hbucket) as Hperm.
  fold row in Hperm.
  pose proof (distributed_row_length _ _ _ _ _ Hbucket) as [_ Hlen].
  assert (Hitems : length (non_gaps bucket) = length bucket).
  { rewrite distributed_rows_eq in Hbucket.
    by apply (distribute_items_only _ _ _ Hbucket). }
  split.
  - rewrite Hperm. apply fill_gaps_length. rewrite Hlen. unfold COLS.
    apply Nat.lt_succ_r, Nat.Div0.div_lt_upper_bound. lia.
  - rewrite (non_gaps_Permutation _ _ Hperm), non_gaps_fill_gaps. congruence.
Qed.

(** X3. On a board made from 10 to 20 items every row holds between 2
    and 5 items and so between 1 and 4 gaps, and no row holds more
    items than a row above it. *)
Theorem rows_have_items_and_gaps rnd k items :
  unit_interval rnd →
  10 ≤ length items ≤ 20 →
  let cells := (generate_layout rnd k items).1 in
  (∀ r, r < 4 →
     2 ≤ length (non_gaps (layout_row r cells)) ≤ 5
     ∧ 1 ≤ length (gaps (layout_row r cells)) ≤ 4)
  ∧ (∀ r1 r2, r1 ≤ r2 → r2 < 4 →
       length (non_gaps (layout_row r2 cells))
       ≤ length (non_gaps (layout_row r1 cells))).
Proof.
  intros _ Hn cells. split.
  - intros r Hr.
    destruct (layout_row_items rnd k items r ltac:(lia) Hr) as [Hlen Hitems].
    fold cells in Hlen, Hitems.
    pose proof (non_gaps_gaps_length (layout_row r cells)) as Hsum.
    rewrite Hlen, Hitems in Hsum. rewrite Hitems. unfold COLS in Hsum.
    pose proof (Nat.div_mod (length items + 3 - r) 4).
    pose proof (Nat.mod_upper_bound (length items + 3 - r) 4).
    lia.
  - intros r1 r2 Hle Hr2.
    destruct (layout_row_items rnd k items r1 ltac:(lia) ltac:(lia)) as [_ H1].
    destruct (layout_row_items rnd k items r2 ltac:(lia) Hr2) as [_ H2].
    fold cells in H1, H2. rewrite H1, H2.
    apply Nat.Div0.div_le_mono. lia.
Qed.

Lemma rows_have_items_and_gaps_witness :
  let cells := (generate_layout sample_source 0 sample_items).1 in
  2 ≤ length (non_gaps (layout_row 3 cells)) ≤ 5
  ∧ 1 ≤ length (gaps (layout_row 3 cells)) ≤ 4.
Proof.
  intros cells.
  destruct (rows_have_items_and_gaps sample_source 0 sample_items
              sample_source_unit_interval) as [Hrows _].
  - vm_compute. lia.
  - apply Hrows. lia.
Defined.

(** ** The lines of the input *)

Lemma join_cons_cons sep x y l :
  join sep (x :: y :: l) = x +:+ sep +:+ join sep (y :: l).
Proof. reflexivity. Qed.

Lemma split_lines_join s : join (String newline "") (split_lines s) = s.
Proof.
  induction s as [|c s IH]; [done|]. cbn [split_lines].
  pose proof (split_lines_nonempty s) as Hne.
  destruct (split_lines s) as [|line lines]; [done|].
  case_decide as Hc.
  - subst c. rewrite join_cons_cons, IH. done.
  - destruct lines as [|line' lines].
    + cbn in IH. cbn. by rewrite IH.
    + rewrite join_cons_cons in IH. rewrite join_cons_cons.
      change (String c (line +:+ String newline "" +:+
                        join (String newline "") (line' :: lines))
              = String c s).
      by rewrite IH.
Qed.

Lemma split_lines_no_newline s line :
  line ∈ split_lines s → newline ∉ list_ascii_of_string line.
Proof.
  revert line. induction s as [|c s IH]; intros line.
  - cbn. intros ->%list_elem_of_singleton. cbn. apply not_elem_of_nil.
  - cbn [split_lines].
    pose proof (split_lines_nonempty s) as Hne.
    destruct (split_lines s) as [|first rest]; [done|].
    case_decide as Hc.
    + intros [->|Hin]%elem_of_cons; [cbn; apply not_elem_of_nil|].
      by apply IH.
    + intros [->|Hin]%elem_of_cons.
      * cbn [list_ascii_of_string]. apply not_elem_of_cons. split; [done|].
        apply IH. left.
      * apply IH. by right.
Qed.

(** X4. The items of a game are lines of the text typed in: splitting
    at the newlines loses nothing (the lines joined by newlines give
    the text back), no item contains a newline, no item is blank, and
    there are at most as many items as lines. *)
Theorem input_items_are_lines input :
  join (String newline "") (split_lines input) = input
  ∧ length (input_items input) ≤ length (split_lines input)
  ∧ ∀ item, item ∈ input_items input →
      item ∈ split_lines input
      ∧ (newline ∉ list_ascii_of_string item)
      ∧ trim item ≠ ""
      ∧ item ≠ "".
Proof.
  split_and!.
  - apply split_lines_join.
  - apply length_filter.
  - intros item [Hnb Hin]%list_elem_of_filter. split_and!; [done| |done|].
    + by apply (split_lines_no_newline input).
    + intros ->. by apply Hnb.
Qed.

(** ** The generate button *)

Lemma truthy_string_nonempty s : truthy_string s = true ↔ s ≠ "".
Proof.
  unfold truthy_string. rewrite negb_true_iff. apply String.eqb_neq.
Qed.

Lemma itemCount_input_items input :
  itemCount input = length (input_items input).
Proof.
  unfold itemCount, input_items. f_equal. apply list_filter_iff.
  intros line. rewrite <- truthy_string_nonempty.
  by destruct (truthy_string (trim line)).
Qed.

Lemma createDisabled_false isCreating input :
  createDisabled isCreating input = false
  ↔ isCreating = false ∧ 10 ≤ length (input_items input) ≤ 20.
Proof.
  unfold createDisabled. rewrite itemCount_input_items.
  rewrite !orb_false_iff, !Nat.ltb_ge. naive_solver.
Qed.

(** X5. The generate button and the handler agree on what is valid
    input: the button is enabled exactly when no creation is running
    and the text has 10 to 20 items, and a press of the enabled button
    never ends in the validation dialog or in a silent return: the
    handler generates a board (it consumes random numbers) and issues
    the write of the game. *)
Theorem enabled_button_generates (toString36 : Q → string) rnd k stored c uid :
  user c = Some uid →
  ∀ isCreating,
    (createDisabled isCreating (inputList c) = false
     ↔ isCreating = false ∧ 10 ≤ length (input_items (inputList c)) ≤ 20)
    ∧ (createDisabled isCreating (inputList c) = false →
       let r := handleCreateGame toString36 rnd k stored c in
       ¬ shows_error r.1
       ∧ k < r.2
       ∧ length (store_writes r.1) = 1).
Proof.
  intros Hu isCreating. split; [apply createDisabled_false|].
  intros [_ Hn]%createDisabled_false r.
  destruct (handleCreateGame_valid toString36 rnd k stored c uid Hn Hu)
    as (Hk & id & Hw).
  fold r in Hk, Hw. split_and!.
  - intros [msg Hmsg]. unfold r, handleCreateGame in Hmsg.
    rewrite decide_False in Hmsg.
    2:{ rewrite <- input_items_nil. intros Hnil. rewrite Hnil in Hn.
        cbn in Hn. lia. }
    replace (length _ <? 10) with false in Hmsg
      by (symmetry; apply Nat.ltb_ge; lia).
    replace (20 <? length _) with false in Hmsg
      by (symmetry; apply Nat.ltb_ge; lia).
    cbn [orb] in Hmsg.
    destruct (generate_layout rnd k (input_items (inputList c))) as [cs k'].
    rewrite Hu in Hmsg. cbn [fst] in Hmsg.
    destruct stored; set_solver.
  - lia.
  - by rewrite Hw.
Qed.

Lemma input_items_are_lines_witness :
  input_items sample_input =
    ["one"; "two"; "three"; "four"; "five"; "six"; "seven"; "eight"; "nine";
     "ten"]
  ∧ "four" ∈ split_lines sample_input
  ∧ (newline ∉ list_ascii_of_string "four")
  ∧ trim "four" ≠ ""
  ∧ "four" ≠ "".
Proof.
  assert (Hitems : input_items sample_input =
            ["one"; "two"; "three"; "four"; "five"; "six"; "seven"; "eight";
             "nine"; "ten"]) by (vm_compute; reflexivity).
  split; [exact Hitems|].
  destruct (input_items_are_lines sample_input) as (_ & _ & Hall).
  apply Hall. rewrite Hitems. do 3 apply list_elem_of_further.
  apply list_elem_of_here.
Defined.

Lemma enabled_button_generates_witness :
  createDisabled false sample_input = false
  ∧ let r := handleCreateGame (λ _, "0.abcdefghijk") sample_source 0 true
               (typing sample_input) in
    ¬ shows_error r.1 ∧ 0 < r.2 ∧ length (store_writes r.1) = 1.
Proof.
  assert (Hen : createDisabled false sample_input = false)
    by (vm_compute; reflexivity).
  split; [exact Hen|].
  destruct (enabled_button_generates (λ _, "0.abcdefghijk") sample_source 0
              true (typing sample_input) "u1" eq_refl false) as [_ Hgen].
  exact (Hgen Hen).
Defined.

(** ** Creating a game *)

Lemma handleCreateGame_effects (toString36 : Q → string) rnd k stored c uid :
  10 ≤ length (input_items (inputList c)) ≤ 20 →
  user c = Some uid →
  let items := input_items (inputList c) in
  let cells := (generate_layout rnd k items).1 in
  let newGameId :=
    substring 2 7 (toString36 (rnd (k + (length items - 1) + 20))) in
  (handleCreateGame toString36 rnd k stored c).1 =
    [setIsCreating true;
     setDoc_game
       (SetGame newGameId
          {| d_layout := cells; d_createdAt := serverTimestamp;
             d_creatorId := uid; d_participantCount := 0 |})]
    ++ (if stored then [setGameId newGameId; setView play]
        else [setErrorMsg "Failed to create game. Try again."])
    ++ [setIsCreating false].
Proof.
  intros Hn Hu items cells newGameId. unfold handleCreateGame.
  rewrite decide_False.
  2:{ rewrite <- input_items_nil. intros Hnil. rewrite Hnil in Hn. cbn in Hn. lia. }
  replace (length _ <? 10) with false by (symmetry; apply Nat.ltb_ge; lia).
  replace (20 <? length _) with false by (symmetry; apply Nat.ltb_ge; lia).
  cbn [orb].
  pose proof (generate_layout_counter rnd k (input_items (inputList c))
                ltac:(lia)) as Hk.
  unfold newGameId, cells, items.
  destruct (generate_layout rnd k (input_items (inputList c))) as [cs k'].
  cbn [fst snd] in *. rewrite Hu, Hk. by destruct stored.
Qed.

(** X6. With 10 to 20 items, creating a game does the following, in
    this order: the busy flag is raised, one game document is written
    (the generated 24-slot layout, the creator, a participant count of
    0, the server time as creation time), then the client moves to the
    play view of the new game if the write succeeded and shows the
    failure message without moving otherwise, and the busy flag is
    lowered in both cases. The write replaces whatever game document
    the identifier had and touches no participant document; when the
    identifier has no participant documents the count of the new game
    agrees with them. *)
Theorem create_game_effects (toString36 : Q → string) rnd k stored c uid :
  10 ≤ length (input_items (inputList c)) ≤ 20 →
  user c = Some uid →
  let items := input_items (inputList c) in
  let cells := (generate_layout rnd k items).1 in
  let r := handleCreateGame toString36 rnd k stored c in
  ∃ newGameId,
    r.1 = [setIsCreating true;
           setDoc_game
             (SetGame newGameId
                {| d_layout := cells; d_createdAt := serverTimestamp;
                   d_creatorId := uid; d_participantCount := 0 |})]
          ++ (if stored then [setGameId newGameId; setView play]
              else [setErrorMsg "Failed to create game. Try again."])
          ++ [setIsCreating false]
    ∧ length cells = 24
    ∧ (stored = false → setView play ∉ r.1)
    ∧ ∀ now s,
        let s1 := apply_writes now (store_writes r.1) s in
        games s1 !! newGameId =
          Some {| layout := Some cells; createdAt := Some now;
                  creatorId := Some uid; participantCount := Some 0%Z |}
        ∧ participants s1 = participants s
        ∧ (participants_of s newGameId = [] → count_consistent s1 newGameId).
Proof.
  intros Hn Hu items cells r.
  pose proof (handleCreateGame_effects toString36 rnd k stored c uid Hn Hu)
    as Heff.
  cbn zeta in Heff. fold items cells r in Heff.
  eexists. split; [exact Heff|].
  split; [apply generate_layout_length; unfold items; lia|].
  split.
  - intros ->. rewrite Heff. cbn. set_solver.
  - intros now s s1.
    assert (Hs1 : s1 = apply_write now
              (SetGame
                 (substring 2 7
                    (toString36 (rnd (k + (length items - 1) + 20))))
                 {| d_layout := cells; d_createdAt := serverTimestamp;
                    d_creatorId := uid; d_participantCount := 0 |}) s).
    { unfold s1. rewrite Heff. by destruct stored. }
    rewrite Hs1. cbn [apply_write games participants].
    split_and!; [apply lookup_insert_eq|done|].
    intros Hnone. eexists. split; [apply lookup_insert_eq|].
    cbn [resolve_game participantCount d_participantCount].
    unfold participants_of in *. cbn [participants]. by rewrite Hnone.
Qed.

Lemma create_game_effects_witness :
  let c := typing sample_input in
  let cells := (generate_layout sample_source 0 (input_items (inputList c))).1 in
  let r := handleCreateGame (λ _, "0.abcdefghijk") sample_source 0 false c in
  ∃ newGameId,
    r.1 = [setIsCreating true;
           setDoc_game
             (SetGame newGameId
                {| d_layout := cells; d_createdAt := serverTimestamp;
                   d_creatorId := "u1"; d_participantCount := 0 |})]
          ++ [setErrorMsg "Failed to create game. Try again."]
          ++ [setIsCreating false].
Proof.
  intros c cells r.
  destruct (create_game_effects (λ _, "0.abcdefghijk") sample_source 0 false
              c "u1") as (id & Heff & _).
  - vm_compute. lia.
  - reflexivity.
  - exists id. exact Heff.
Defined.

(** ** The documents of a game *)

Lemma participants_of_games (G G' : gmap string game) m g :
  participants_of {| games := G; participants := m |} g
  = participants_of {| games := G'; participants := m |} g.
Proof. reflexivity. Qed.

Lemma participants_of_insert_fresh (G : gmap string game)
    (m : gmap (string * string) participant) g u p :
  m !! (g, u) = None →
  participants_of {| games := G; participants := <[(g, u) := p]> m |} g
  ≡ₚ p :: participants_of {| games := G; participants := m |} g.
Proof.
  intros Hnone. unfold participants_of. cbn [participants].
  rewrite map_to_list_insert by done.
  by rewrite filter_cons_True by done.
Qed.

Lemma participants_of_insert_fresh_other (G : gmap string game)
    (m : gmap (string * string) participant) g g' u p :
  g' ≠ g → m !! (g', u) = None →
  participants_of {| games := G; participants := <[(g', u) := p]> m |} g
  ≡ₚ participants_of {| games := G; participants := m |} g.
Proof.
  intros Hne Hnone. unfold participants_of. cbn [participants].
  rewrite map_to_list_insert by done.
  by rewrite filter_cons_False by done.
Qed.

Lemma participants_of_insert (G : gmap string game)
    (m : gmap (string * string) participant) g u p :
  participants_of {| games := G; participants := <[(g, u) := p]> m |} g
  ≡ₚ p :: participants_of
            {| games := G; participants := delete (g, u) m |} g.
Proof.
  rewrite <- insert_delete_eq.
  apply participants_of_insert_fresh, lookup_delete_eq.
Qed.

Lemma participants_of_lookup s g u p :
  participants s !! (g, u) = Some p →
  participants_of s g ≡ₚ p :: others_of s g u.
Proof.
  intros Hp. unfold others_of. rewrite <- participants_of_insert.
  rewrite insert_id by done. by destruct s.
Qed.

Lemma participants_of_absent s g u :
  participants s !! (g, u) = None → others_of s g u = participants_of s g.
Proof.
  intros Hp. unfold others_of. rewrite delete_id by done. by destruct s.
Qed.

Lemma participants_of_insert_other (G : gmap string game)
    (m : gmap (string * string) participant) g g' u p :
  g' ≠ g →
  participants_of {| games := G; participants := <[(g', u) := p]> m |} g
  ≡ₚ participants_of {| games := G; participants := m |} g.
Proof.
  intros Hne. rewrite <- insert_delete_eq.
  rewrite participants_of_insert_fresh_other by (done || apply lookup_delete_eq).
  destruct (m !! (g', u)) as [old|] eqn:Hold.
  - rewrite <- (insert_id m (g', u) old) at 2 by done.
    rewrite <- (insert_delete_eq m).
    by rewrite participants_of_insert_fresh_other
      by (done || apply lookup_delete_eq).
  - by rewrite delete_id.
Qed.

(** A document whose key is above those of all others heads the
    ordering of any arrangement of the documents. *)
Lemma presence_order_first docs p rest :
  docs ≡ₚ p :: rest →
  (∀ q, q ∈ rest → (toMillisOr0 q < toMillisOr0 p)%Z) →
  ∃ rest', presence_order docs = p :: rest' ∧ rest' ≡ₚ rest.
Proof.
  intros Hperm Hlt.
  assert (Hin : p ∈ docs) by (rewrite Hperm; left).
  apply list_elem_of_split in Hin as (l1 & l2 & ->).
  assert (Hrest : l1 ++ l2 ≡ₚ rest).
  { apply (Permutation_cons_inv (a := p)). rewrite <- Hperm.
    apply Permutation_middle. }
  exists (presence_order (l1 ++ l2)). split.
  - apply (sort_greatest_first toMillisOr0 _ byLastActiveDesc_key).
    intros q Hq. apply Hlt. by rewrite <- Hrest.
  - unfold presence_order. by rewrite sort_Permutation.
Qed.

(** ** Activity moves a participant to the top *)

(** X7. A click on an item cell and a change of name both push their
    author to the top of the list: when the write reaches the store at
    a server time later than the last activity of every other
    participant of the game, the ordering that any client of the game
    computes from its next snapshot (the author's own client and the
    client of any other user alike) starts with the author's document,
    stamped with that time, followed by the documents of the others. *)
Theorem activity_moves_to_top now s c uid stored :
  user c = Some uid →
  participants s !! (gameId c, uid) = Some stored →
  (∀ q, q ∈ others_of s (gameId c) uid → (toMillisOr0 q < now)%Z) →
  (∀ i mine g cells item,
     myParticipantData c = Some mine →
     gameData c = Some g → layout g = Some cells →
     cells !! i = Some (Some item) →
     let s1 := commit now (toggleCell i c) s in
     ∀ c' uid', user c' = Some uid' → gameId c' = gameId c →
       ∃ p rest,
         participants s1 !! (gameId c, uid) = Some p
         ∧ lastActive p = Some now
         ∧ participantsView (observe s1 c') = p :: rest
         ∧ rest ≡ₚ others_of s (gameId c) uid)
  ∧ (trim (newName c) ≠ "" →
     let s1 := commit now (updateName c) s in
     ∀ c' uid', user c' = Some uid' → gameId c' = gameId c →
       ∃ p rest,
         participants s1 !! (gameId c, uid) = Some p
         ∧ name p = Some (newName c)
         ∧ lastActive p = Some now
         ∧ participantsView (observe s1 c') = p :: rest
         ∧ rest ≡ₚ others_of s (gameId c) uid).
Proof.
  intros Hu Hstored Hothers.
  assert (Htop : ∀ p c' uid',
            lastActive p = Some now →
            user c' = Some uid' → gameId c' = gameId c →
            ∃ rest,
              participantsView
                (observe
                   {| games := games s;
                      participants :=
                        <[(gameId c, uid) := p]> (participants s) |} c')
              = p :: rest
              ∧ rest ≡ₚ others_of s (gameId c) uid).
  { intros p c' uid' Hp Hu' Hg'. unfold observe. rewrite Hu', Hg'.
    cbn [onParticipantsSnapshot participantsView].
    apply presence_order_first; [apply participants_of_insert|].
    intros q Hq. unfold toMillisOr0 at 2. rewrite Hp. by apply Hothers. }
  split.
  - intros i mine g cells item Hmine Hg Hcells Hi s1 c' uid' Hu' Hg'.
    assert (Hs1 : s1 = _)
      by (apply (commit_toggle s c mine stored g cells i uid now);
          (done || by rewrite Hi)).
    rewrite Hs1. eexists. 
    destruct (Htop
                {| name := name stored;
                   checkedIndices :=
                     Some (newChecks i (default [] (checkedIndices mine)));
                   userId := userId stored;
                   lastActive := Some now |} c' uid' eq_refl Hu' Hg')
      as (rest & Hview & Hrest).
    exists rest. split_and!; [apply lookup_insert_eq|done|exact Hview|done].
  - intros Hname s1 c' uid' Hu' Hg'.
    assert (Hs1 : s1 = _)
      by (by apply (commit_updateName s c stored uid now)).
    rewrite Hs1. eexists.
    destruct (Htop
                {| name := Some (newName c);
                   checkedIndices := checkedIndices stored;
                   userId := userId stored;
                   lastActive := Some now |} c' uid' eq_refl Hu' Hg')
      as (rest & Hview & Hrest).
    exists rest. split_and!; [apply lookup_insert_eq|done|done|exact Hview|done].
Qed.

Lemma sample_room_others q :
  q ∈ others_of sample_room "g1" "u1" → q = sample_other.
Proof.
  intros Hq. vm_compute in Hq.
  by apply list_elem_of_singleton in Hq.
Qed.

Lemma sample_room_me :
  participants sample_room !! ("g1", "u1") = Some sample_me.
Proof. vm_compute. reflexivity. Qed.

Lemma activity_moves_to_top_witness :
  let s1 := commit 2000 (toggleCell 0 sample_client) sample_room in
  ∃ p rest,
    participants s1 !! ("g1", "u1") = Some p
    ∧ lastActive p = Some 2000%Z
    ∧ participantsView (observe s1 sample_newcomer) = p :: rest
    ∧ rest ≡ₚ others_of sample_room "g1" "u1".
Proof.
  destruct (activity_moves_to_top 2000 sample_room sample_client "u1"
              sample_me eq_refl sample_room_me) as [Htoggle _].
  - intros q ->%sample_room_others. reflexivity.
  - apply (Htoggle 0 sample_me sample_game sample_cells "f" eq_refl eq_refl
             eq_refl eq_refl sample_newcomer "u2");
      reflexivity.
Defined.

(** ** What one click and one change of name write *)

Lemma elem_of_marked x p :
  x ∈ marked p ↔ x ∈ default [] (checkedIndices p).
Proof. unfold marked. apply elem_of_list_to_set. Qed.

(** X8. One click on an item cell flips that cell and no other: the
    new marked set is the one the client held, with the clicked index
    added if it was absent and removed if it was present. The write
    keeps the name and the owner of the stored document, stamps it with
    the server time, and changes nothing else in the store: no game
    document and no document of another participant. *)
Theorem toggle_flips_one now s c uid g cells item mine stored i :
  user c = Some uid →
  gameData c = Some g → layout g = Some cells →
  cells !! i = Some (Some item) →
  myParticipantData c = Some mine →
  participants s !! (gameId c, uid) = Some stored →
  let s1 := commit now (toggleCell i c) s in
  ∃ p,
    participants s1 !! (gameId c, uid) = Some p
    ∧ (∀ x, x ∈ marked p
            ↔ (x ≠ i ∧ x ∈ marked mine) ∨ (x = i ∧ i ∉ marked mine))
    ∧ name p = name stored
    ∧ userId p = userId stored
    ∧ lastActive p = Some now
    ∧ games s1 = games s
    ∧ ∀ key, key ≠ (gameId c, uid) →
        participants s1 !! key = participants s !! key.
Proof.
  intros Hu Hg Hcells Hi Hmine Hstored s1.
  assert (Hs1 : s1 = _)
    by (apply (commit_toggle s c mine stored g cells i uid now);
        (done || by rewrite Hi)).
  rewrite Hs1. cbn [games participants]. eexists.
  split_and!; [apply lookup_insert_eq| |done..|].
  - intros x. rewrite !elem_of_marked. cbn [checkedIndices default from_option].
    unfold id. apply elem_of_newChecks.
  - intros key Hkey. by rewrite lookup_insert_ne.
Qed.

Lemma toggle_flips_one_witness :
  let s1 := commit 2000 (toggleCell 0 sample_client) sample_room in
  ∃ p,
    participants s1 !! ("g1", "u1") = Some p
    ∧ (∀ x, x ∈ marked p
            ↔ (x ≠ 0 ∧ x ∈ marked sample_me) ∨ (x = 0 ∧ 0 ∉ marked sample_me))
    ∧ name p = name sample_me
    ∧ userId p = userId sample_me
    ∧ lastActive p = Some 2000%Z
    ∧ games s1 = games sample_room
    ∧ ∀ key, key ≠ ("g1", "u1") →
        participants s1 !! key = participants sample_room !! key.
Proof.
  apply (toggle_flips_one 2000 sample_room sample_client "u1" sample_game
           sample_cells "f" sample_me sample_me 0); try reflexivity.
Defined.

(** X9. A change of name to a text that is not blank stores the text
    as typed (it is not trimmed), keeps the marked cells and the owner
    of the document, stamps it with the server time and changes nothing
    else in the store. A blank name is ignored: nothing is written and
    nothing is raised. *)
Theorem rename_keeps_marks now s c uid stored :
  user c = Some uid →
  participants s !! (gameId c, uid) = Some stored →
  (trim (newName c) = "" →
     updateName c = Returned [] ∧ commit now (updateName c) s = s)
  ∧ (trim (newName c) ≠ "" →
     let s1 := commit now (updateName c) s in
     ∃ p,
       participants s1 !! (gameId c, uid) = Some p
       ∧ name p = Some (newName c)
       ∧ checkedIndices p = checkedIndices stored
       ∧ userId p = userId stored
       ∧ lastActive p = Some now
       ∧ games s1 = games s
       ∧ ∀ key, key ≠ (gameId c, uid) →
           participants s1 !! key = participants s !! key).
Proof.
  intros Hu Hstored. split.
  - intros Hblank. unfold updateName. by rewrite decide_True.
  - intros Hname s1.
    assert (Hs1 : s1 = _) by (by apply (commit_updateName s c stored uid now)).
    rewrite Hs1. cbn [games participants]. eexists.
    split_and!; [apply lookup_insert_eq|done..|].
    intros key Hkey. by rewrite lookup_insert_ne.
Qed.

Lemma rename_keeps_marks_witness :
  let s1 := commit 2000 (updateName sample_client) sample_room in
  ∃ p,
    participants s1 !! ("g1", "u1") = Some p
    ∧ name p = Some "Red-Funky-Badger-7"
    ∧ checkedIndices p = Some [1]
    ∧ userId p = Some "u1"
    ∧ lastActive p = Some 2000%Z
    ∧ games s1 = games sample_room
    ∧ ∀ key, key ≠ ("g1", "u1") →
        participants s1 !! key = participants sample_room !! key.
Proof.
  destruct (rename_keeps_marks 2000 sample_room sample_client "u1" sample_me
              eq_refl sample_room_me) as [_ Hrename].
  apply Hrename. vm_compute. discriminate.
Defined.

(** ** The participant listener *)

Lemma own_document_missing uid docs mine :
  (∀ d, d ∈ docs → userId d ≠ Some uid) →
  foldl (λ mine data, if decide (userId data = Some uid) then Some data else mine)
    mine docs = mine.
Proof.
  revert mine. induction docs as [|d docs IH]; intros mine Hall; [done|].
  cbn [foldl]. rewrite decide_False by (apply Hall; left).
  apply IH. intros d' Hd'. apply Hall. by right.
Qed.

(** X10. From every snapshot the listener shows all documents of the
    game, each once, and picks out the caller's own: when the document
    stored under the caller's identity carries that identity it becomes
    [myParticipantData]; when there is no such document, or it carries
    no identity, [myParticipantData] is left as it was. *)
Theorem listener_records_own_document s c uid :
  owner_keyed s →
  user c = Some uid →
  participantsView (observe s c) ≡ₚ participants_of s (gameId c)
  ∧ (∀ p, participants s !! (gameId c, uid) = Some p →
          userId p = Some uid →
          myParticipantData (observe s c) = Some p)
  ∧ ((∀ p, participants s !! (gameId c, uid) = Some p →
           userId p ≠ Some uid) →
     myParticipantData (observe s c) = myParticipantData c).
Proof.
  intros Hs Hu. split_and!.
  - unfold observe. rewrite Hu. cbn [onParticipantsSnapshot participantsView].
    apply sort_Permutation.
  - intros p Hp Hid. by destruct (observe_own s c uid p Hs Hu Hp Hid).
  - intros Hnone. unfold observe. rewrite Hu.
    cbn [onParticipantsSnapshot myParticipantData].
    apply own_document_missing.
    intros d [u Hd]%elem_of_participants_of Hdu.
    destruct (Hs _ _ _ Hd) as [Hown|Hno]; [|congruence].
    assert (u = uid) as -> by congruence. by apply (Hnone d).
Qed.

Lemma listener_records_own_document_witness :
  participantsView (observe sample_room sample_newcomer)
    ≡ₚ participants_of sample_room "g1"
  ∧ myParticipantData (observe sample_room sample_client) = Some sample_me
  ∧ myParticipantData (observe sample_room sample_newcomer) = None.
Proof.
  assert (Hk : owner_keyed sample_room).
  { intros g u p Hp. cbn [sample_room participants] in Hp.
    apply lookup_insert_Some in Hp as [[[= <- <-] <-]|[_ Hp]]; [by left|].
    apply lookup_singleton_Some in Hp as [[= <- <-] <-]. by left. }
  destruct (listener_records_own_document sample_room sample_newcomer "u2"
              Hk eq_refl) as (Hview & _ & Hnone).
  destruct (listener_records_own_document sample_room sample_client "u1"
              Hk eq_refl) as (_ & Hown & _).
  split; [exact Hview|]. split.
  - apply Hown; [exact sample_room_me|reflexivity].
  - apply Hnone. intros p Hp. vm_compute in Hp. discriminate Hp.
Defined.

(** ** From the join to the first mark *)

(** X11. A newcomer joins, receives the snapshot, and clicks an item
    cell: the store then holds the newcomer's document with the name
    given at the join, exactly the clicked cell marked, and the time of
    the click as last activity. *)
Theorem join_then_click rnd k t0 t1 s c uid g cells item i :
  owner_keyed s →
  user c = Some uid → gameId c ≠ "" →
  gameData c = Some g → layout g = Some cells →
  cells !! i = Some (Some item) →
  participants s !! (gameId c, uid) = None →
  let s1 := apply_writes t0 (ensureJoined rnd k s c) s in
  let c1 := observe s1 c in
  let w2 := click i t1 (s1, c1) in
  ∃ p,
    participants w2.1 !! (gameId c, uid) = Some p
    ∧ name p = Some (generateFunnyName rnd k).1
    ∧ marked p = {[i]}
    ∧ userId p = Some uid
    ∧ lastActive p = Some t1.
Proof.
  intros Hs Hu Hgid Hg Hcells Hi Hnone s1 c1 w2.
  set (created := {| name := Some (generateFunnyName rnd k).1;
                     checkedIndices := Some [];
                     userId := Some uid;
                     lastActive := Some t0 |}).
  assert (Hk1 : owner_keyed s1) by (by apply owner_keyed_ensureJoined).
  assert (Hp1 : participants s1 !! (gameId c, uid) = Some created).
  { unfold s1. rewrite (ensureJoined_absent rnd k s c uid g) by done.
    unfold apply_writes. cbn [foldl apply_write].
    destruct (games _ !! gameId c); cbn [participants];
      apply lookup_insert_eq. }
  destruct (observe_own s1 c uid created Hk1 Hu Hp1 eq_refl)
    as (Hmine & Hu1 & Hgid1 & Hg1).
  fold c1 in Hmine, Hu1, Hgid1, Hg1.
  assert (Hitem : cells !! i ≠ Some None) by (by rewrite Hi).
  unfold w2, click. cbn [fst snd].
  rewrite (commit_toggle s1 c1 created created g cells i uid t1);
    rewrite ?Hgid1; try done; try congruence.
  cbn [participants]. eexists.
  split_and!; [apply lookup_insert_eq|done| |done|done].
  unfold marked. cbn [checkedIndices created default from_option].
  unfold id, newChecks. rewrite bool_decide_eq_false_2 by apply not_elem_of_nil.
  cbn. set_solver.
Qed.

Lemma join_then_click_witness :
  let s1 :=
    apply_writes 1900 (ensureJoined sample_source 0 sample_room sample_newcomer)
      sample_room in
  let w2 := click 0 2000 (s1, observe s1 sample_newcomer) in
  ∃ p,
    participants w2.1 !! ("g1", "u2") = Some p
    ∧ name p = Some (generateFunnyName sample_source 0).1
    ∧ marked p = {[0]}
    ∧ userId p = Some "u2"
    ∧ lastActive p = Some 2000%Z.
Proof.
  apply (join_then_click sample_source 0 1900 2000 sample_room sample_newcomer
           "u2" sample_game sample_cells "f" 0); try reflexivity.
  - intros g u p Hp. cbn [sample_room participants] in Hp.
    apply lookup_insert_Some in Hp as [[[= <- <-] <-]|[_ Hp]]; [by left|].
    apply lookup_singleton_Some in Hp as [[= <- <-] <-]. by left.
  - discriminate.
Defined.

(** ** The participant counter *)

Lemma count_consistent_overwrite s g u old p g0 :
  participants s !! (g, u) = Some old →
  count_consistent s g0 →
  count_consistent
    {| games := games s; participants := <[(g, u) := p]> (participants s) |} g0.
Proof.
  intros Hold (gm & Hgm & Hcount). exists gm. split; [done|].
  rewrite Hcount. do 2 f_equal.
  destruct (decide (g = g0)) as [->|Hne].
  - rewrite participants_of_insert.
    by rewrite (participants_of_lookup s g0 u old).
  - rewrite participants_of_insert_other by done. by destruct s.
Qed.

(** X12. The counter of a game keeps counting its participant
    documents: if [participantCount] equals the number of participant
    documents of a game, it still does after any client has run the
    join (whether it created a document or found one), and after a
    click or a change of name by a client whose document exists. *)
Theorem counter_tracks_documents rnd k now s c g0 :
  count_consistent s g0 →
  count_consistent (apply_writes now (ensureJoined rnd k s c) s) g0
  ∧ (∀ uid, user c = Some uid →
            is_Some (participants s !! (gameId c, uid)) →
            (∀ i, count_consistent (commit now (toggleCell i c) s) g0)
            ∧ count_consistent (commit now (updateName c) s) g0).
Proof.
  intros Hcons. split.
  - unfold ensureJoined.
    destruct (user c) as [uid|]; [|done].
    destruct (gameData c); [|done]. case_decide; [done|].
    destruct (participants s !! (gameId c, uid)) eqn:Hp; [done|].
    destruct (generateFunnyName rnd k) as [initialName k'].
    unfold apply_writes. cbn [foldl apply_write games participants].
    destruct Hcons as (gm & Hgm & Hcount).
    destruct (decide (gameId c = g0)) as [Heq|Hne].
    + rewrite Heq in *. rewrite Hgm. eexists.
      split; [cbn [games]; apply lookup_insert_eq|].
      cbn [participantCount]. rewrite Hcount. cbn [default from_option].
      unfold id. rewrite participants_of_insert_fresh by done.
      cbn [length]. do 2 f_equal.
      rewrite (participants_of_games _ (games s)).
      assert (Hs : participants_of
                     {| games := games s; participants := participants s |} g0
                   = participants_of s g0) by (by destruct s).
      rewrite Hs. lia.
    + exists gm. split.
      * destruct (games s !! gameId c); cbn [games];
          [by rewrite lookup_insert_ne|done].
      * rewrite Hcount. do 2 f_equal.
        destruct (games s !! gameId c); cbn [games participants];
          rewrite participants_of_insert_other by done; by destruct s.
  - intros uid Hu [old Hold]. split.
    + intros i. unfold toggleCell.
      destruct (myParticipantData c); [|done].
      destruct (gameData c) as [g|]; [|done].
      destruct (layout g) as [cells|]; [|done]. rewrite Hu.
      destruct (cells !! i) as [[item|]|]; try done;
        unfold commit, apply_writes; cbn [foldl apply_write];
        by apply (count_consistent_overwrite s _ _ old).
    + unfold updateName. case_decide; [done|]. rewrite Hu.
      unfold commit, apply_writes. cbn [foldl apply_write].
      by apply (count_consistent_overwrite s _ _ old).
Qed.

Lemma sample_room_count_consistent : count_consistent sample_room "g1".
Proof.
  eexists. split; [vm_compute; reflexivity|]. vm_compute. reflexivity.
Qed.

Lemma counter_tracks_documents_witness :
  count_consistent
    (apply_writes 1900 (ensureJoined sample_source 0 sample_room sample_newcomer)
       sample_room) "g1"
  ∧ count_consistent (commit 2000 (toggleCell 0 sample_client) sample_room) "g1".
Proof.
  split.
  - apply (counter_tracks_documents sample_source 0 1900 sample_room
             sample_newcomer "g1" sample_room_count_consistent).
  - destruct (counter_tracks_documents sample_source 0 2000 sample_room
                sample_client "g1" sample_room_count_consistent) as [_ Hrest].
    destruct (Hrest "u1" eq_refl) as [Htoggle _].
    + exists sample_me. exact sample_room_me.
    + apply Htoggle.
Defined.

(** ** A change of name before the join *)

(** X13. If the change of name reaches the store before the client's
    document exists, the merge creates a document that has a name and a
    time but no owner and no marked cells. From then on the join finds
    a document and writes nothing, so the counter is never incremented
    for this participant (it falls behind the number of documents),
    and the listener never recognises the document as the client's own:
    a client that had none keeps none, and its clicks are ignored. *)
Theorem rename_before_join now s c uid g :
  owner_keyed s →
  user c = Some uid → gameData c = Some g →
  trim (newName c) ≠ "" →
  participants s !! (gameId c, uid) = None →
  myParticipantData c = None →
  let s1 := commit now (updateName c) s in
  let c1 := observe s1 c in
  participants s1 !! (gameId c, uid) =
    Some {| name := Some (newName c); checkedIndices := None;
            userId := None; lastActive := Some now |}
  ∧ (∀ rnd k, ensureJoined rnd k s1 c = [])
  ∧ myParticipantData c1 = None
  ∧ (∀ i, toggleCell i c1 = Returned [])
  ∧ (count_consistent s (gameId c) → ¬ count_consistent s1 (gameId c)).
Proof.
  intros Hs Hu Hg Hname Hnone Hmine s1 c1.
  set (p := {| name := Some (newName c); checkedIndices := None;
               userId := None; lastActive := Some now |}).
  assert (Hs1 : s1 = {| games := games s;
                        participants :=
                          <[(gameId c, uid) := p]> (participants s) |}).
  { unfold s1, updateName. rewrite decide_False, Hu by done.
    unfold commit, apply_writes. cbn [foldl apply_write]. by rewrite Hnone. }
  assert (Hp1 : participants s1 !! (gameId c, uid) = Some p)
    by (rewrite Hs1; apply lookup_insert_eq).
  assert (Hk1 : owner_keyed s1)
    by (rewrite Hs1; apply owner_keyed_insert; [done|by right]).
  assert (Hc1 : myParticipantData c1 = None).
  { unfold c1, observe. rewrite Hu.
    cbn [onParticipantsSnapshot myParticipantData]. rewrite Hmine.
    apply own_document_missing.
    intros d [u Hd]%elem_of_participants_of Hdu.
    destruct (Hk1 _ _ _ Hd) as [Hown|Hno]; [|congruence].
    assert (u = uid) as -> by congruence.
    rewrite Hp1 in Hd. injection Hd as <-. done. }
  split_and!; [done| |done| |].
  - intros rnd k. apply (ensureJoined_present _ _ _ _ uid); [done|].
    rewrite Hp1. eauto.
  - intros i. unfold toggleCell. by rewrite Hc1.
  - intros (gm & Hgm & Hcount) (gm' & Hgm' & Hcount').
    rewrite Hs1 in Hgm', Hcount'. cbn [games] in Hgm'.
    assert (gm' = gm) as -> by congruence.
    rewrite Hcount in Hcount'. injection Hcount' as Hlen.
    apply Nat2Z.inj in Hlen.
    rewrite participants_of_insert_fresh in Hlen by done.
    assert (Hsame : participants_of
                      {| games := games s; participants := participants s |}
                      (gameId c)
                    = participants_of s (gameId c)) by (by destruct s).
    rewrite Hsame in Hlen. cbn [length] in Hlen. lia.
Qed.

Lemma rename_before_join_witness :
  let c := {| user := Some "u2"; gameId := "g1"; inputList := "";
              gameData := Some sample_game; myParticipantData := None;
              participantsView := []; newName := "Early Bird" |} in
  let s1 := commit 1900 (updateName c) sample_room in
  participants s1 !! ("g1", "u2") =
    Some {| name := Some "Early Bird"; checkedIndices := None;
            userId := None; lastActive := Some 1900%Z |}
  ∧ (∀ rnd k, ensureJoined rnd k s1 c = [])
  ∧ myParticipantData (observe s1 c) = None
  ∧ (∀ i, toggleCell i (observe s1 c) = Returned [])
  ∧ (count_consistent sample_room "g1" → ¬ count_consistent s1 "g1").
Proof.
  intros c.
  apply (rename_before_join 1900 sample_room c "u2" sample_game);
    try reflexivity.
  - intros g u p Hp. cbn [sample_room participants] in Hp.
    apply lookup_insert_Some in Hp as [[[= <- <-] <-]|[_ Hp]]; [by left|].
    apply lookup_singleton_Some in Hp as [[= <- <-] <-]. by left.
  - vm_compute. discriminate.
Defined.

(** ** Whose documents the handlers write *)

(** X14. The handlers of the play view write only what belongs to
    their caller. The join writes only for a signed-in user with a game
    identifier and a loaded game whose document is absent, and then to
    that user's document and to the counter of that game, by 1; a click
    and a change of name issue at most one write, to the caller's own
    participant document, and never touch a counter or a game. A client
    whose game was reported as not found holds no game and issues no
    join write at all. *)
Theorem handlers_write_own_documents rnd k s c :
  (∀ w, w ∈ ensureJoined rnd k s c →
     ∃ uid, user c = Some uid ∧ gameId c ≠ "" ∧ is_Some (gameData c)
            ∧ participants s !! (gameId c, uid) = None
            ∧ writes_own (gameId c) uid w)
  ∧ (∀ i ws, toggleCell i c = Returned ws →
       length ws ≤ 1
       ∧ ∀ w, w ∈ ws →
           ∃ uid d, user c = Some uid ∧ is_Some (myParticipantData c)
                    ∧ w = SetParticipant (gameId c) uid d true)
  ∧ (∀ ws, updateName c = Returned ws →
       length ws ≤ 1
       ∧ ∀ w, w ∈ ws →
           ∃ uid d, user c = Some uid
                    ∧ w = SetParticipant (gameId c) uid d true)
  ∧ ((onGameSnapshot None c).2 = "Game not found."
     ∧ ∀ s', ensureJoined rnd k s' (onGameSnapshot None c).1 = []).
Proof.
  split_and!.
  - intros w. unfold ensureJoined.
    destruct (user c) as [uid|]; [|by intros ?%elem_of_nil].
    destruct (gameData c); [|by intros ?%elem_of_nil].
    case_decide; [by intros ?%elem_of_nil|].
    destruct (participants s !! (gameId c, uid)) eqn:Hp;
      [by intros ?%elem_of_nil|].
    destruct (generateFunnyName rnd k) as [initialName k'].
    intros Hw. exists uid. split_and!; [done..|eauto|done|].
    apply elem_of_cons in Hw as [->|Hw]; [done|].
    apply list_elem_of_singleton in Hw as ->. done.
  - intros i ws. unfold toggleCell.
    destruct (myParticipantData c) as [mine|];
      [|intros [= <-]; split; [cbn; lia|by intros ? ?%elem_of_nil]].
    destruct (gameData c) as [g|]; [|done].
    destruct (layout g) as [cells|]; [|done].
    destruct (user c) as [uid|].
    + destruct (cells !! i) as [[item|]|]; intros [= <-];
        (split; [cbn; lia|]); intros w Hw;
        try (by apply elem_of_nil in Hw);
        apply list_elem_of_singleton in Hw as ->; eauto 10.
    + destruct (cells !! i) as [[item|]|]; try done.
      intros [= <-]. split; [cbn; lia|by intros ? ?%elem_of_nil].
  - intros ws. unfold updateName.
    case_decide; [intros [= <-]; split; [cbn; lia|by intros ? ?%elem_of_nil]|].
    destruct (user c) as [uid|]; [|done].
    intros [= <-]. split; [cbn; lia|]. intros w Hw.
    apply list_elem_of_singleton in Hw as ->. eauto.
  - done.
  - intros s'. unfold ensureJoined. cbn. by destruct (user c).
Qed.

Lemma handlers_write_own_documents_witness :
  IncrementParticipantCount "g1" 1
    ∈ ensureJoined sample_source 0 sample_room sample_newcomer
  ∧ ∃ uid, user sample_newcomer = Some uid
           ∧ writes_own "g1" uid (IncrementParticipantCount "g1" 1).
Proof.
  assert (Hw : IncrementParticipantCount "g1" 1
               ∈ ensureJoined sample_source 0 sample_room sample_newcomer).
  { vm_compute. apply list_elem_of_further, list_elem_of_here. }
  split; [exact Hw|].
  destruct (handlers_write_own_documents sample_source 0 sample_room
              sample_newcomer) as (Hjoin & _).
  destruct (Hjoin _ Hw) as (uid & Hu & _ & _ & _ & Hown).
  exists uid. split; [exact Hu|exact Hown].
Defined.

(** ** The board *)

Lemma clicks_elem_of (h : nat → nat) (b : nat → bool) (cells : list slot) x :
  x ∈ omap (λ cell, match cell with
                    | item_cell _ _ idx => Some idx
                    | gap_cell => None
                    end)
        (imap (λ idx item,
                 match item with
                 | None => gap_cell
                 | Some text => item_cell text (b idx) (h idx)
                 end) cells)
  ↔ ∃ i item, cells !! i = Some (Some item) ∧ x = h i.
Proof.
  rewrite list_elem_of_omap. split.
  - intros (cell & Hcell & Hsel).
    apply elem_of_lookup_imap in Hcell as (i & [item|] & -> & Hi); [|done].
    injection Hsel as <-. eauto.
  - intros (i & item & Hi & ->). exists (item_cell item (b i) (h i)).
    split; [|reflexivity].
    apply elem_of_lookup_imap. exists i, (Some item). done.
Qed.

Lemma clicks_NoDup_length (h : nat → nat) (b : nat → bool) (cells : list slot) :
  Inj (=) (=) h →
  let l := omap (λ cell, match cell with
                         | item_cell _ _ idx => Some idx
                         | gap_cell => None
                         end)
             (imap (λ idx item,
                      match item with
                      | None => gap_cell
                      | Some text => item_cell text (b idx) (h idx)
                      end) cells) in
  NoDup l ∧ length l = length (non_gaps cells).
Proof.
  revert h b. induction cells as [|[item|] cells IH]; intros h b Hinj.
  - split; [constructor|done].
  - destruct (IH (h ∘ S) (b ∘ S)) as [Hnd Hlen]; [apply _|].
    cbn zeta. rewrite imap_cons. cbn [omap list_omap]. split.
    + constructor; [|exact Hnd].
      intros (i & it & _ & Heq)%(clicks_elem_of (h ∘ S) (b ∘ S)).
      apply Hinj in Heq. done.
    + cbn [length]. unfold non_gaps in *. cbn [omap list_omap id length].
      f_equal. exact Hlen.
  - destruct (IH (h ∘ S) (b ∘ S)) as [Hnd Hlen]; [apply _|].
    cbn zeta. rewrite imap_cons. cbn [omap list_omap]. split; [exact Hnd|].
    unfold non_gaps in *. cbn [omap list_omap id]. exact Hlen.
Qed.

Lemma isChecked_marked mine idx :
  isChecked mine idx = true ↔ ∃ p, mine = Some p ∧ idx ∈ marked p.
Proof.
  unfold isChecked. destruct mine as [p|]; [|naive_solver].
  rewrite (exist_proper _ (λ p', Some p = Some p' ∧ idx ∈ default [] (checkedIndices p')))
    by (intros p'; by rewrite elem_of_marked).
  destruct (checkedIndices p) as [checks|] eqn:Hc.
  - rewrite bool_decide_eq_true. split.
    + intros Hin. exists p. by rewrite Hc.
    + intros (p' & [= <-] & Hin). by rewrite Hc in Hin.
  - split; [done|]. intros (p' & [= <-] & Hin). rewrite Hc in Hin.
    by apply elem_of_nil in Hin.
Qed.

Lemma board_offers_item_clicks cells :
  (∀ idx, idx ∈ board_clicks cells None
          ↔ ∃ item, cells !! idx = Some (Some item))
  ∧ NoDup (board_clicks cells None)
  ∧ length (board_clicks cells None) = length (non_gaps cells).
Proof.
  destruct (clicks_NoDup_length id (isChecked None) cells _) as [Hnd Hlen].
  split_and!; [|exact Hnd|exact Hlen].
  intros idx. unfold board_clicks, board.
  rewrite (clicks_elem_of id (isChecked None)). naive_solver.
Qed.

(** X15. The board offers a click exactly on the item cells of the
    layout, one per item and with the index of the cell; a cell shows
    its check mark exactly when its index is in the marked set the
    client holds; and once the client holds its own document, every
    click the board offers is taken by the handler, which answers it
    with one write. *)
Theorem board_offers_item_cells cells mine :
  (∀ idx, idx ∈ board_clicks cells mine
          ↔ ∃ item, cells !! idx = Some (Some item))
  ∧ NoDup (board_clicks cells mine)
  ∧ length (board_clicks cells mine) = length (non_gaps cells)
  ∧ (∀ pos text checked idx,
       board cells mine !! pos = Some (item_cell text checked idx) →
       idx = pos
       ∧ cells !! pos = Some (Some text)
       ∧ (checked = true ↔ ∃ p, mine = Some p ∧ pos ∈ marked p))
  ∧ (∀ c g uid p idx,
       gameData c = Some g → layout g = Some cells →
       user c = Some uid → myParticipantData c = Some p →
       idx ∈ board_clicks cells mine →
       ∃ w, toggleCell idx c = Returned [w]).
Proof.
  assert (Hin : ∀ idx, idx ∈ board_clicks cells mine
                       ↔ ∃ item, cells !! idx = Some (Some item)).
  { intros idx. unfold board_clicks, board.
    rewrite (clicks_elem_of id (isChecked mine)). naive_solver. }
  destruct (clicks_NoDup_length id (isChecked mine) cells _) as [Hnd Hlen].
  split_and!; [done|exact Hnd|exact Hlen| |].
  - intros pos text checked idx Hpos. unfold board in Hpos.
    rewrite list_lookup_imap in Hpos.
    unfold slot in *.
    destruct (cells !! pos) as [[item|]|] eqn:Hc; simplify_eq/=.
    split_and!; [done..|]. apply isChecked_marked.
  - intros c g uid p idx Hg Hcells Hu Hp [item Hitem]%Hin.
    eexists. apply (toggleCell_writes c p g cells idx uid); try done.
    by rewrite Hitem.
Qed.

Lemma board_offers_item_cells_witness :
  board_clicks sample_cells (Some sample_me)
  = [0; 1; 5; 7; 10; 11; 12; 13; 16; 18; 20]
  ∧ ∃ w, toggleCell 5 sample_client = Returned [w].
Proof.
  assert (Hclicks : board_clicks sample_cells (Some sample_me)
                    = [0; 1; 5; 7; 10; 11; 12; 13; 16; 18; 20])
    by (vm_compute; reflexivity).
  split; [exact Hclicks|].
  destruct (board_offers_item_cells sample_cells (Some sample_me))
    as (_ & _ & _ & _ & Htaken).
  apply (Htaken sample_client sample_game "u1" sample_me 5); try reflexivity.
  rewrite Hclicks. do 2 apply list_elem_of_further. apply list_elem_of_here.
Defined.

(** ** The participant cards *)

Lemma green_count (h : nat → nat) (cells : list slot) (checks : list nat) :
  length (filter (λ bg, bg = bg_green)
            (imap (λ idx cell,
                     if bool_decide (h idx ∈ checks) then bg_green
                     else match cell with
                          | None => bg_gray
                          | Some _ => bg_white
                          end) cells))
  = length (filter (λ i, i ∈ checks) (h <$> seq 0 (length cells))).
Proof.
  revert h. induction cells as [|cell cells IH]; intros h; [done|].
  rewrite imap_cons. cbn [length seq]. rewrite fmap_cons, <- fmap_S_seq.
  rewrite <- list_fmap_compose, !filter_cons.
  specialize (IH (h ∘ S)).
  case_bool_decide as Hin.
  - rewrite decide_True by done. rewrite decide_True by done.
    cbn [length]. f_equal. exact IH.
  - rewrite (decide_False (P := h 0 ∈ checks)) by done.
    destruct cell; (rewrite decide_False by done); exact IH.
Qed.

Lemma gray_count (h : nat → nat) (cells : list slot) (checks : list nat) :
  (∀ i, cells !! i = Some None → h i ∉ checks) →
  length (filter (λ bg, bg = bg_gray)
            (imap (λ idx cell,
                     if bool_decide (h idx ∈ checks) then bg_green
                     else match cell with
                          | None => bg_gray
                          | Some _ => bg_white
                          end) cells))
  = length (gaps cells).
Proof.
  revert h. induction cells as [|cell cells IH]; intros h Hgap; [done|].
  rewrite imap_cons. unfold gaps in *. rewrite !filter_cons.
  specialize (IH (h ∘ S) (λ i, Hgap (S i))).
  destruct cell as [item|].
  - rewrite (decide_False (P := Some item = None)) by done.
    case_bool_decide; (rewrite decide_False by done); exact IH.
  - rewrite bool_decide_eq_false_2 by (by apply (Hgap 0)).
    rewrite !decide_True by done. cbn [length]. f_equal. exact IH.
Qed.

(** X16. For a participant whose marked cells satisfy the invariant, on
    a board of 24 slots: the progress bar divides by the number of
    items of the board, the marked cells never outnumber the items (so
    the bar stays within its track without the cap), and the bar is
    full exactly when every item is marked. The small grid of the card
    shows one green cell per marked index and one gray cell per gap,
    and no gap is shown green. *)
Theorem card_shows_marks cells p :
  checks_ok cells p →
  length cells = TOTAL_CELLS →
  let checks := default [] (checkedIndices p) in
  let marks := (progress_parts cells p).1 in
  let items := (progress_parts cells p).2 in
  items = length (non_gaps cells)
  ∧ marks ≤ items
  ∧ (marks = items
     ↔ ∀ idx item, cells !! idx = Some (Some item) → idx ∈ marked p)
  ∧ length (filter (λ bg, bg = bg_green) (miniGrid cells checks)) = marks
  ∧ length (filter (λ bg, bg = bg_gray) (miniGrid cells checks))
    = length (gaps cells)
  ∧ (∀ idx, miniGrid cells checks !! idx = Some bg_green →
            ∃ item, cells !! idx = Some (Some item)).
Proof.
  intros [Hidx Hnd] Hlen checks marks items.
  fold checks in Hidx, Hnd.
  assert (Hitems : items = length (non_gaps cells)).
  { unfold items, progress_parts. cbn [snd].
    pose proof (non_gaps_gaps_length cells). lia. }
  set (clicks := board_clicks cells None).
  destruct (board_offers_item_clicks cells) as (Hin & Hcnd & Hclen).
  fold clicks in Hin, Hcnd, Hclen.
  assert (Hsub : checks ⊆+ clicks).
  { apply NoDup_submseteq; [done|]. intros x Hx. apply Hin.
    by destruct (Hidx x Hx) as [_ Hitem]. }
  assert (Hmarks : marks = length checks) by done.
  split_and!.
  - done.
  - rewrite Hitems, <- Hclen, Hmarks. by apply submseteq_length.
  - rewrite Hitems, <- Hclen, Hmarks. split.
    + intros Heq idx item Hitem. apply elem_of_marked. fold checks.
      assert (Hperm : checks ≡ₚ clicks)
        by (apply submseteq_length_Permutation; [done|lia]).
      rewrite Hperm. apply Hin. eauto.
    + intros Hall. apply Nat.le_antisymm; [by apply submseteq_length|].
      apply submseteq_length, NoDup_submseteq; [done|].
      intros x [item Hitem]%Hin.
      apply (elem_of_marked x p). by apply (Hall x item).
  - unfold miniGrid. rewrite (green_count id), list_fmap_id.
    rewrite Hmarks. apply Permutation_length, NoDup_Permutation.
    + apply NoDup_filter, NoDup_seq.
    + done.
    + intros x. rewrite list_elem_of_filter, elem_of_seq. split; [naive_solver|].
      intros Hx. split; [done|]. destruct (Hidx x Hx) as [Hlt _].
      rewrite Hlen. lia.
  - unfold miniGrid. apply (gray_count id).
    intros i Hgap Hi. destruct (Hidx i Hi) as [_ [item Hitem]]. congruence.
  - intros idx Hgreen. unfold miniGrid in Hgreen.
    rewrite list_lookup_imap in Hgreen. unfold slot in *.
    destruct (cells !! idx) as [cell|] eqn:Hc; [|done]. cbn in Hgreen.
    case_bool_decide as Hin'; [|by destruct cell].
    destruct (Hidx idx Hin') as [_ [item Hitem]]. exists item. congruence.
Qed.

Lemma card_shows_marks_witness :
  progress_parts sample_cells sample_me = (1, 11)
  ∧ length (filter (λ bg, bg = bg_green) (miniGrid sample_cells [1])) = 1
  ∧ length (filter (λ bg, bg = bg_gray) (miniGrid sample_cells [1]))
    = length (gaps sample_cells).
Proof.
  destruct (card_shows_marks sample_cells sample_me sample_me_checks_ok)
    as (_ & _ & _ & Hgreen & Hgray & _).
  - vm_compute. reflexivity.
  - split; [vm_compute; reflexivity|]. split; [exact Hgreen|exact Hgray].
Defined.

(** ** Clicks from a copy that is behind *)

(** X17. A click writes the whole list of marked cells computed from
    the copy the client holds, not a change to the stored list. So if
    two clients of the same user hold the same copy and click two
    different item cells one after the other, neither having received
    the other's write, the second write undoes the first: the stored
    set is the common copy with only the second cell flipped. *)
Theorem stale_click_overwrites t1 t2 s c1 c2 uid g cells mine i j item_i item_j :
  user c1 = Some uid → user c2 = Some uid → gameId c2 = gameId c1 →
  gameData c1 = Some g → gameData c2 = Some g → layout g = Some cells →
  cells !! i = Some (Some item_i) → cells !! j = Some (Some item_j) →
  i ≠ j →
  myParticipantData c1 = Some mine → myParticipantData c2 = Some mine →
  participants s !! (gameId c1, uid) = Some mine →
  let s1 := commit t1 (toggleCell i c1) s in
  let s2 := commit t2 (toggleCell j c2) s1 in
  ∃ p1 p2,
    participants s1 !! (gameId c1, uid) = Some p1
    ∧ participants s2 !! (gameId c1, uid) = Some p2
    ∧ (i ∈ marked p1 ↔ i ∉ marked mine)
    ∧ (i ∈ marked p2 ↔ i ∈ marked mine)
    ∧ (j ∈ marked p2 ↔ j ∉ marked mine)
    ∧ lastActive p2 = Some t2.
Proof.
  intros Hu1 Hu2 Hgid Hg1 Hg2 Hcells Hi Hj Hne Hm1 Hm2 Hstored s1 s2.
  set (p1 := {| name := name mine;
                checkedIndices :=
                  Some (newChecks i (default [] (checkedIndices mine)));
                userId := userId mine;
                lastActive := Some t1 |}).
  assert (Hs1 : s1 = {| games := games s;
                        participants :=
                          <[(gameId c1, uid) := p1]> (participants s) |})
    by (apply (commit_toggle s c1 mine mine g cells i uid t1);
        (done || by rewrite Hi)).
  assert (Hp1 : participants s1 !! (gameId c2, uid) = Some p1)
    by (rewrite Hs1, Hgid; apply lookup_insert_eq).
  assert (Hs2 : s2 = _)
    by (apply (commit_toggle s1 c2 mine p1 g cells j uid t2 Hm2 Hg2 Hcells);
        [by rewrite Hj|done|exact Hp1]).
  subst p1. eexists _, _. split_and!.
  - rewrite Hs1. apply lookup_insert_eq.
  - rewrite Hs2, Hgid. apply lookup_insert_eq.
  - rewrite !elem_of_marked. cbn [checkedIndices default from_option].
    unfold id. rewrite elem_of_newChecks. naive_solver.
  - rewrite !elem_of_marked. cbn [checkedIndices default from_option].
    unfold id. rewrite elem_of_newChecks. naive_solver.
  - rewrite !elem_of_marked. cbn [checkedIndices default from_option].
    unfold id. rewrite elem_of_newChecks. naive_solver.
  - done.
Qed.

Lemma stale_click_overwrites_witness :
  let s1 := commit 2000 (toggleCell 0 sample_client) sample_room in
  let s2 := commit 2100 (toggleCell 5 sample_client) s1 in
  ∃ p1 p2,
    participants s1 !! ("g1", "u1") = Some p1
    ∧ participants s2 !! ("g1", "u1") = Some p2
    ∧ (0 ∈ marked p1 ↔ 0 ∉ marked sample_me)
    ∧ (0 ∈ marked p2 ↔ 0 ∈ marked sample_me)
    ∧ (5 ∈ marked p2 ↔ 5 ∉ marked sample_me)
    ∧ lastActive p2 = Some 2100%Z.
Proof.
  apply (stale_click_overwrites 2000 2100 sample_room sample_client
           sample_client "u1" sample_game sample_cells sample_me 0 5 "f" "c");
    try reflexivity.
  discriminate.
Defined.

(** ** A new game in the recent boards *)

Lemma sort_first {A} (key : A → Z) (cmp : A → A → Z) docs x rest :
  (∀ a b, cmp a b = (key b - key a)%Z) →
  docs ≡ₚ x :: rest →
  (∀ y, y ∈ rest → (key y < key x)%Z) →
  ∃ rest', sort cmp docs = x :: rest' ∧ rest' ≡ₚ rest.
Proof.
  intros Hcmp Hperm Hlt.
  assert (Hin : x ∈ docs) by (rewrite Hperm; left).
  apply list_elem_of_split in Hin as (l1 & l2 & ->).
  assert (Hrest : l1 ++ l2 ≡ₚ rest).
  { apply (Permutation_cons_inv (a := x)). rewrite <- Hperm.
    apply Permutation_middle. }
  exists (sort cmp (l1 ++ l2)). split.
  - apply (sort_greatest_first key cmp Hcmp).
    intros y Hy. apply Hlt. by rewrite <- Hrest.
  - by rewrite sort_Permutation.
Qed.

(** X18. A game written at a server time later than the creation of
    every other game is the first of the recent boards on the next
    snapshot, with at most five older games after it; its card shows
    its identifier, the participant count it was created with, and the
    preview of its layout. *)
Theorem new_game_tops_recent now s newGameId cells uid :
  (∀ id g t, games s !! id = Some g → id ≠ newGameId →
             createdAt g = Some t → (t < now)%Z) →
  let data := {| d_layout := cells; d_createdAt := serverTimestamp;
                 d_creatorId := uid; d_participantCount := 0 |} in
  let s1 := apply_write now (SetGame newGameId data) s in
  ∃ rest,
    recentGames s1 = (newGameId, resolve_game now data) :: rest
    ∧ length rest ≤ 5
    ∧ (∀ e, e ∈ rest → e.1 ≠ newGameId ∧ games s !! e.1 = Some e.2)
    ∧ recent_cards previewText s1 =
        {| card_id := newGameId;
           card_participantCount := 0;
           card_preview :=
             join ", " (take 3 (filter_truthy cells))
             +:+ (if 3 <? length (filter_truthy cells) then "..." else "") |}
        :: (render_card previewText <$> rest).
Proof.
  intros Holder data s1.
  set (g := resolve_game now data).
  set (cmp := λ a b : string * game,
         (default 0 (createdAt b.2) - default 0 (createdAt a.2))%Z).
  set (dated := λ m : gmap string game,
         filter (λ kv : string * game, is_Some (createdAt kv.2))
           (map_to_list m)).
  assert (Hperm : dated (games s1) ≡ₚ
                  (newGameId, g) :: dated (delete newGameId (games s))).
  { unfold dated, s1. cbn [apply_write games]. fold g.
    rewrite <- insert_delete_eq.
    rewrite map_to_list_insert by apply lookup_delete_eq.
    rewrite filter_cons_True; [done|]. cbn. eauto. }
  assert (Hold : ∀ e, e ∈ dated (delete newGameId (games s)) →
                      e.1 ≠ newGameId ∧ games s !! e.1 = Some e.2
                      ∧ is_Some (createdAt e.2)).
  { intros [id g'] [Hd Hin]%list_elem_of_filter.
    apply elem_of_map_to_list in Hin.
    apply lookup_delete_Some in Hin as [Hne Hin]. cbn. split_and!; done. }
  destruct (sort_first (λ kv : string * game, default 0%Z (createdAt kv.2))
              cmp (dated (games s1)) (newGameId, g)
              (dated (delete newGameId (games s))))
    as (rest' & Hsort & Hrest'); [done|exact Hperm| |].
  { intros e He. destruct (Hold e He) as (Hne & Hg & [t Ht]).
    cbn. rewrite Ht. cbn. by apply (Holder e.1 e.2 t). }
  assert (Hrecent : recentGames s1 = (newGameId, g) :: take 5 rest').
  { rewrite recentGames_eq. fold (dated (games s1)). fold cmp.
    by rewrite Hsort. }
  exists (take 5 rest'). split_and!.
  - exact Hrecent.
  - rewrite length_take. lia.
  - intros e He. apply elem_of_take in He as (i & He & _).
    apply list_elem_of_lookup_2 in He. rewrite Hrest' in He.
    by destruct (Hold e He) as (? & ? & _).
  - unfold recent_cards. rewrite Hrecent. by rewrite fmap_cons.
Qed.

Lemma new_game_tops_recent_witness :
  let data := {| d_layout := sample_cells; d_createdAt := serverTimestamp;
                 d_creatorId := "u1"; d_participantCount := 0 |} in
  let s1 := apply_write 3000 (SetGame "g2" data) sample_store in
  ∃ rest,
    recentGames s1 = ("g2", resolve_game 3000 data) :: rest
    ∧ length rest ≤ 5
    ∧ (∀ e, e ∈ rest → e.1 ≠ "g2" ∧ games sample_store !! e.1 = Some e.2)
    ∧ recent_cards previewText s1 =
        {| card_id := "g2";
           card_participantCount := 0;
           card_preview :=
             join ", " (take 3 (filter_truthy sample_cells))
             +:+ (if 3 <? length (filter_truthy sample_cells)
                  then "..." else "") |}
        :: (render_card previewText <$> rest).
Proof.
  apply (new_game_tops_recent 3000 sample_store "g2" sample_cells "u1").
  intros id g t Hg _ Ht. cbn [sample_store games] in Hg.
  apply lookup_singleton_Some in Hg as [_ <-].
  cbn in Ht. injection Ht as <-. reflexivity.
Defined.
